(** * Quality Metrics Engine: a shallow embedding of [src/services/metrics.ts]

    The engine scores an LLM response along five dimensions and averages
    them.  This file embeds the scoring functions of [metrics.ts] and proves
    properties of them.

    Conventions of the embedding:
    - a JavaScript string is the list of its UTF-16 code units ([jsstring]);
      [length] is the JavaScript [.length];
    - a JavaScript number is an exact rational ([Q]); counts and lengths are
      [nat] or [Z] and are injected into [Q] where the source divides;
    - a regular-expression literal is a value of type [regex], run by a
      backtracking matcher with the priorities of the ECMAScript matcher
      (greedy quantifiers, left alternative first);
    - [String.prototype.toLowerCase] depends on the Unicode case tables; the
      analyzers take it as the section variable [toLowerCase], so every
      theorem holds whatever the tables say.  [asciiLower] is its restriction
      to Basic Latin, used to run the functions on ASCII inputs. *)

From Stdlib Require Import List Bool Arith NArith ZArith QArith Qround Qminmax.
From Stdlib Require Import Lia Lqa Ascii String Permutation.
Import ListNotations.

Close Scope Q_scope.

(** ** Strings as UTF-16 code units *)

Module JS.

Definition jsstring := list N.

(** Code units of an ASCII literal. *)
Fixpoint lit (s : string) : jsstring :=
  match s with
  | EmptyString => []
  | String a s' => N_of_ascii a :: lit s'
  end.

Arguments lit s%_string_scope.

Definition nl : jsstring := [10%N].

Fixpoint beqs (a b : jsstring) : bool :=
  match a, b with
  | [], [] => true
  | x :: a', y :: b' => N.eqb x y && beqs a' b'
  | _, _ => false
  end.

(** *** Character classes *)

Definition inRange (lo hi c : N) : bool := (lo <=? c)%N && (c <=? hi)%N.

(** ECMAScript LineTerminator: LF, CR, LS, PS. *)
Definition isLineTerminator (c : N) : bool :=
  N.eqb c 10 || N.eqb c 13 || N.eqb c 8232 || N.eqb c 8233.

(** ECMAScript [\s], which is also what [trim] strips: WhiteSpace (TAB, VT,
    FF, SP, NBSP, ZWNBSP and the Zs category) and LineTerminator. *)
Definition isSpace (c : N) : bool :=
  inRange 9 13 c || N.eqb c 32 || N.eqb c 160 || N.eqb c 5760
  || inRange 8192 8202 c || N.eqb c 8232 || N.eqb c 8233 || N.eqb c 8239
  || N.eqb c 8287 || N.eqb c 12288 || N.eqb c 65279.

(** [\d] *)
Definition isDigit (c : N) : bool := inRange 48 57 c.

(** [[A-Z]] and [[a-z]] *)
Definition isUpper (c : N) : bool := inRange 65 90 c.
Definition isLower (c : N) : bool := inRange 97 122 c.

(** [.] without the s flag *)
Definition isDot (c : N) : bool := negb (isLineTerminator c).

Definition anyChar (_ : N) : bool := true.

Definition ch (x : N) (c : N) : bool := N.eqb c x.

(** Canonicalize of the i flag (non-unicode mode) on a Basic Latin pattern
    character: a code unit matches the letter when its upper-case form is the
    same, and no code unit above 127 canonicalizes into Basic Latin. *)
Definition upperAscii (c : N) : N := if isLower c then (c - 32)%N else c.
Definition isCI (x : N) (c : N) : bool := N.eqb (upperAscii c) (upperAscii x).

(** [toLowerCase] on Basic Latin. *)
Definition asciiLower (s : jsstring) : jsstring :=
  map (fun c => if isUpper c then (c + 32)%N else c) s.

(** *** Regular expressions *)

(** The fragment of the ECMAScript pattern language that [metrics.ts] uses:
    every quantifier of the source applies to a single character class. *)
Inductive regex : Type :=
| Eps : regex
| Cls : (N -> bool) -> regex
| Seq : regex -> regex -> regex
| Alt : regex -> regex -> regex
| Rep : (N -> bool) -> nat -> option nat -> regex
| Bol : bool -> regex
| Eol : bool -> regex.

Definition Plus (p : N -> bool) : regex := Rep p 1 None.
Definition Star (p : N -> bool) : regex := Rep p 0 None.
Definition Opt (p : N -> bool) : regex := Rep p 0 (Some 1).

(** A literal, matched case-sensitively or under the i flag. *)
Fixpoint Str (s : jsstring) : regex :=
  match s with
  | [] => Eps
  | c :: s' => Seq (Cls (ch c)) (Str s')
  end.

Fixpoint StrCI (s : jsstring) : regex :=
  match s with
  | [] => Eps
  | c :: s' => Seq (Cls (isCI c)) (StrCI s')
  end.

Fixpoint Alts (rs : list regex) : regex :=
  match rs with
  | [] => Cls (fun _ => false)
  | [r] => r
  | r :: rs' => Alt r (Alts rs')
  end.

(** [^] and [$]: with the m flag they also hold next to a line terminator. *)
Definition atLineStart (multiline : bool) (prev : option N) : bool :=
  match prev with
  | None => true
  | Some c => multiline && isLineTerminator c
  end.

Definition atLineEnd (multiline : bool) (s : jsstring) : bool :=
  match s with
  | [] => true
  | c :: _ => multiline && isLineTerminator c
  end.

Section Matcher.
Variable A : Type.

(** The continuation receives the cursor after the match: the code unit
    before it (for [^]) and the rest of the input. *)
Definition cont := option N -> jsstring -> option A.

(** Greedy [{lo,hi}] on a class: take one more code unit when allowed,
    and fall back to stopping here once [lo] is reached. *)
Fixpoint rep (p : N -> bool) (lo : nat) (hi : option nat) (k : cont)
         (prev : option N) (s : jsstring) {struct s} : option A :=
  let stop := match lo with O => k prev s | S _ => None end in
  match hi with
  | Some O => stop
  | _ =>
    match s with
    | c :: s' =>
      if p c then
        match rep p (pred lo) (option_map pred hi) k (Some c) s' with
        | Some r => Some r
        | None => stop
        end
      else stop
    | [] => stop
    end
  end.

Fixpoint run (r : regex) (k : cont) (prev : option N) (s : jsstring)
  : option A :=
  match r with
  | Eps => k prev s
  | Cls p =>
    match s with
    | c :: s' => if p c then k (Some c) s' else None
    | [] => None
    end
  | Seq a b => run a (run b k) prev s
  | Alt a b =>
    match run a k prev s with
    | Some x => Some x
    | None => run b k prev s
    end
  | Rep p lo hi => rep p lo hi k prev s
  | Bol m => if atLineStart m prev then k prev s else None
  | Eol m => if atLineEnd m s then k prev s else None
  end.
End Matcher.

Arguments rep {A} p lo hi k prev s.
Arguments run {A} r k prev s.

(** A match attempt at the cursor; the result is the input left after the
    match. *)
Definition matchAt (r : regex) (prev : option N) (s : jsstring)
  : option jsstring :=
  run r (fun _ rest => Some rest) prev s.

(** [RegExp.prototype.test] for a regex without the g flag: is there a match
    starting at some index from 0 to the length? *)
Fixpoint testFrom (r : regex) (prev : option N) (s : jsstring) : bool :=
  match matchAt r prev s with
  | Some _ => true
  | None =>
    match s with
    | [] => false
    | c :: s' => testFrom r (Some c) s'
    end
  end.

Definition test (r : regex) (s : jsstring) : bool := testFrom r None s.

(** [(s.match(/r/g) || []).length]: the successive leftmost matches, each
    search starting where the previous match ended (one further after an
    empty match).  [skip] counts the code units of the current match still
    to pass. *)
Fixpoint matchCountFrom (r : regex) (skip : nat) (prev : option N)
         (s : jsstring) {struct s} : nat :=
  match skip with
  | S n =>
    match s with
    | [] => 0
    | c :: s' => matchCountFrom r n (Some c) s'
    end
  | O =>
    match matchAt r prev s with
    | Some rest =>
      S (match s with
         | [] => 0
         | c :: s' =>
           matchCountFrom r (pred (List.length s - List.length rest))
                          (Some c) s'
         end)
    | None =>
      match s with
      | [] => 0
      | c :: s' => matchCountFrom r 0 (Some c) s'
      end
    end
  end.

Definition matchCount (r : regex) (s : jsstring) : nat :=
  matchCountFrom r 0 None s.

(** [String.prototype.split] with a regex separator and no limit
    (RegExp.prototype[@@split]): [cur] is the piece from the last split
    point up to the cursor, [skip] the code units of the separator still to
    pass.  An empty match at the split point only advances the cursor. *)
Fixpoint splitLoop (r : regex) (skip : nat) (cur : jsstring)
         (prev : option N) (s : jsstring) {struct s} : list jsstring :=
  match s with
  | [] => [cur]
  | c :: s' =>
    match skip with
    | S n => splitLoop r n cur (Some c) s'
    | O =>
      match matchAt r prev s with
      | None => splitLoop r 0 (cur ++ [c]) (Some c) s'
      | Some rest =>
        match List.length s - List.length rest with
        | O =>
          match cur with
          | [] => splitLoop r 0 [c] (Some c) s'
          | _ => cur :: splitLoop r 0 [c] (Some c) s'
          end
        | S m => cur :: splitLoop r m [] (Some c) s'
        end
      end
    end
  end.

Definition split (r : regex) (s : jsstring) : list jsstring :=
  match s with
  | [] => match matchAt r None [] with Some _ => [] | None => [[]] end
  | _ => splitLoop r 0 [] None s
  end.

(** [String.prototype.trim] *)
Fixpoint trimStart (s : jsstring) : jsstring :=
  match s with
  | c :: s' => if isSpace c then trimStart s' else s
  | [] => []
  end.

Definition trim (s : jsstring) : jsstring :=
  rev (trimStart (rev (trimStart s))).

(** [String.prototype.includes], [endsWith] *)
Fixpoint startsWith (w s : jsstring) : bool :=
  match w, s with
  | [], _ => true
  | x :: w', c :: s' => N.eqb c x && startsWith w' s'
  | _ :: _, [] => false
  end.

Fixpoint includes (s w : jsstring) : bool :=
  startsWith w s ||
  match s with
  | [] => false
  | _ :: s' => includes s' w
  end.

Definition endsWith (s w : jsstring) : bool := startsWith (rev w) (rev s).

(** [Set.prototype.has] and [new Set(array)]: a set is the list of its
    elements in insertion order. *)
Definition has (l : list jsstring) (w : jsstring) : bool :=
  existsb (beqs w) l.

Definition newSet (l : list jsstring) : list jsstring :=
  fold_left (fun acc w => if has acc w then acc else acc ++ [w]) l [].

(** [w] occurs in [s] as a contiguous part. *)
Definition infix (w s : jsstring) : Prop := exists a b, s = a ++ w ++ b.

End JS.

(** ** Numbers *)

Module Num.

Local Open Scope Q_scope.

(** [Math.round]: the nearest integer, halves going up. *)
Definition round (x : Q) : Z := Qfloor (x + (1 # 2)).

(** A count or a length as a number. *)
Definition ofNat (n : nat) : Q := inject_Z (Z.of_nat n).

(** Modelled from the spec: [clamp] of [@/lib/utils], a module that
    [metrics.ts] imports and whose file is not among the sources.  The spec
    only says that a score is clamped to a closed interval; this is the
    usual [Math.min(Math.max(value, min), max)]. *)
Definition clamp (value lo hi : Q) : Q := Qmin (Qmax value lo) hi.

Definition sum (l : list Q) : Q := fold_left Qplus l 0.

(** Modelled from the spec: [average] of [@/lib/utils] (same missing
    module): the unweighted arithmetic mean of the listed numbers. *)
Definition average (l : list Q) : Q :=
  match l with
  | [] => 0
  | _ => sum l / ofNat (List.length l)
  end.

End Num.

(** ** The analyzers of [metrics.ts] *)

Module Metrics.

Import JS Num.
Local Open Scope Q_scope.

Record QualityMetrics : Type := {
  coherence : Z;
  completeness : Z;
  readability : Z;
  lengthAppropriatenss : Z;
  structuralQuality : Z;
  overall : Z
}.

Fixpoint Seqs (rs : list regex) : regex :=
  match rs with
  | [] => Eps
  | [r] => r
  | r :: rs' => Seq r (Seqs rs')
  end.

(** *** The regular-expression literals of the source *)

Definition isTerminator (c : N) : bool := ch 46 c || ch 33 c || ch 63 c.
Definition isBullet (c : N) : bool :=
  ch 45 c || ch 8226 c || ch 42 c || isDigit c.
Definition notBacktick (c : N) : bool := negb (ch 96 c).
Definition notTerminator (c : N) : bool := negb (isTerminator c).

(** [/\s+/] *)
Definition reSpaces : regex := Plus isSpace.
(** [/[.!?]+/] *)
Definition reTerminators : regex := Plus isTerminator.
(** [/\n\n+/] *)
Definition reParagraph : regex := Seq (Cls (ch 10)) (Plus (ch 10)).
(** [/\.\s+/] *)
Definition reDotSpaces : regex := Seq (Cls (ch 46)) (Plus isSpace).
(** [/for example|such as|e\.g\.|i\.e\.|specifically|instance/i] *)
Definition reExample : regex :=
  Alts (map StrCI [lit "for example"; lit "such as"; lit "e.g."; lit "i.e.";
                   lit "specifically"; lit "instance"]).
(** [/\n[\s]*[-•*\d]+\.?[\s]/] *)
Definition reList : regex :=
  Seqs [Cls (ch 10); Star isSpace; Plus isBullet; Opt (ch 46); Cls isSpace].
(** [/first|second|third|finally/i] *)
Definition reOrdinal : regex :=
  Alts (map StrCI [lit "first"; lit "second"; lit "third"; lit "finally"]).
(** [/list|enumerate|steps|how to/i] *)
Definition reListPrompt : regex :=
  Alts (map StrCI [lit "list"; lit "enumerate"; lit "steps"; lit "how to"]).
(** [/explain|describe|discuss|analyze/i] *)
Definition reExplainPrompt : regex :=
  Alts (map StrCI [lit "explain"; lit "describe"; lit "discuss";
                   lit "analyze"]).
(** [/yes|no|true|false|choose|select/i] *)
Definition reChoicePrompt : regex :=
  Alts (map StrCI [lit "yes"; lit "no"; lit "true"; lit "false";
                   lit "choose"; lit "select"]).
(** [/```[\s\S]*```|`[^`]+`/] *)
Definition reCode : regex :=
  Alt (Seqs [Str (lit "```"); Star anyChar; Str (lit "```")])
      (Seqs [Cls (ch 96); Plus notBacktick; Cls (ch 96)]).
(** [/^#{1,6}\s+.+$/m] *)
Definition reHeader : regex :=
  Seqs [Bol true; Rep (ch 35) 1 (Some 6%nat); Plus isSpace; Plus isDot;
        Eol true].
(** [/^[A-Z][^.!?]+:$/m] *)
Definition reLabel : regex :=
  Seqs [Bol true; Cls isUpper; Plus notTerminator; Cls (ch 58); Eol true].
(** [/[.!?]$/] *)
Definition reEndsTerminated : regex := Seq (Cls isTerminator) (Eol false).
(** [/\n{4,}/g] *)
Definition reBreaks : regex := Rep (ch 10) 4 None.
(** [/\(/g] and [/\)/g] *)
Definition reOpenParen : regex := Cls (ch 40).
Definition reCloseParen : regex := Cls (ch 41).

(** *** Helper functions *)

Definition splitIntoSentences (text : jsstring) : list jsstring :=
  filter (fun s => (0 <? List.length s)%nat)
         (map trim (split reTerminators text)).

Definition longerThan3 (w : jsstring) : bool := (3 <? List.length w)%nat.

Definition commonWords : list jsstring :=
  [lit "the"; lit "be"; lit "to"; lit "of"; lit "and"; lit "a"; lit "in";
   lit "that"; lit "have"; lit "i"; lit "it"; lit "for"; lit "not"; lit "on";
   lit "with"; lit "he"; lit "as"; lit "you"; lit "do"; lit "at"; lit "this";
   lit "but"; lit "his"; lit "by"; lit "from"; lit "they"; lit "we";
   lit "say"; lit "her"; lit "she"; lit "or"; lit "an"; lit "will"; lit "my";
   lit "one"; lit "all"; lit "would"; lit "there"; lit "their"; lit "what"].

Definition transitionWords : list jsstring :=
  [lit "however"; lit "therefore"; lit "furthermore"; lit "moreover";
   lit "additionally"; lit "consequently"; lit "nevertheless";
   lit "meanwhile"; lit "similarly"; lit "likewise"; lit "thus"; lit "hence";
   lit "accordingly"; lit "besides"; lit "also"; lit "then"; lit "next";
   lit "finally"; lit "first"; lit "second"; lit "third"; lit "lastly";
   lit "indeed"; lit "certainly"].

Definition vowels : jsstring := lit "aeiouy".

(** The loop of [countSyllables]: [count] and [previousWasVowel] threaded
    through the letters. *)
Fixpoint vowelGroups (word : jsstring) (count : Z) (previousWasVowel : bool)
  : Z :=
  match word with
  | [] => count
  | c :: word' =>
    let isVowel := includes vowels [c] in
    vowelGroups word'
      (if isVowel && negb previousWasVowel then count + 1 else count)%Z
      isVowel
  end.

Section Analyzers.
Variable toLowerCase : jsstring -> jsstring.

Definition isCommonWord (word : jsstring) : bool :=
  has commonWords (toLowerCase word).

Definition countSyllables (word : jsstring) : Z :=
  let word := filter isLower (toLowerCase word) in
  if (List.length word =? 0)%nat then 0%Z
  else
    let count := vowelGroups word 0 false in
    let count := if endsWith word (lit "e") then (count - 1)%Z else count in
    Z.max 1 count.

Definition countTotalSyllables (text : jsstring) : Z :=
  fold_left (fun total word => (total + countSyllables word)%Z)
            (split reSpaces (toLowerCase text)) 0%Z.

(** **** Coherence *)

(** The body of the loop over consecutive sentences. *)
Definition pairScore (sentence nextSentence : jsstring) : Q :=
  let current := toLowerCase sentence in
  let next := toLowerCase nextSentence in
  let currentWords := newSet (filter longerThan3 (split reSpaces current)) in
  let nextWords := newSet (filter longerThan3 (split reSpaces next)) in
  let intersection := newSet (filter (has nextWords) currentWords) in
  let overlapRatio :=
    ofNat (List.length intersection)
    / ofNat (Nat.max (List.length currentWords) 1) in
  let hasTransition := existsb (fun word => includes next word)
                               transitionWords in
  let pairScore := overlapRatio * 70 in
  let pairScore := if hasTransition then pairScore + 30 else pairScore in
  clamp pairScore 0 100.

Fixpoint totalPairScore (sentences : list jsstring) (totalScore : Q) : Q :=
  match sentences with
  | current :: ((next :: _) as rest) =>
    totalPairScore rest (totalScore + pairScore current next)
  | _ => totalScore
  end.

Definition calculateCoherence (text : jsstring) : Q :=
  let sentences := splitIntoSentences text in
  if (List.length sentences =? 0)%nat then 0
  else if (List.length sentences =? 1)%nat then 85
  else
    let totalScore := totalPairScore sentences 0 in
    let coherenceScore := totalScore / ofNat (List.length sentences - 1) in
    let paragraphs := split reParagraph text in
    let structureBonus := ofNat (Nat.min (List.length paragraphs * 2) 10) in
    clamp (coherenceScore + structureBonus) 0 100.

(** **** Completeness *)

Definition promptTerms (prompt : jsstring) : list jsstring :=
  filter (fun w => negb (isCommonWord w))
         (filter longerThan3 (split reSpaces (toLowerCase prompt))).

Definition calculateCompleteness (prompt response : jsstring) : Q :=
  let responseLower := toLowerCase response in
  let promptWords := promptTerms prompt in
  if (List.length promptWords =? 0)%nat then 75
  else
    let addressedTerms :=
      List.length (filter (fun word => includes responseLower word)
                          promptWords) in
    let termCoverage :=
      ofNat addressedTerms / ofNat (List.length promptWords) * 60 in
    let patternScore := 0 in
    let patternScore :=
      if test reExample response then patternScore + 15 else patternScore in
    let patternScore :=
      if test reList response || test reOrdinal response
      then patternScore + 15 else patternScore in
    let patternScore :=
      if (200 <? List.length response)%nat
         && (3 <=? List.length (split reDotSpaces response))%nat
      then patternScore + 10 else patternScore in
    clamp (termCoverage + patternScore) 0 100.

(** **** Readability *)

Definition wordsOf (text : jsstring) : list jsstring :=
  filter (fun w => (0 <? List.length w)%nat) (split reSpaces text).

Definition isLongSentence (s : jsstring) : bool :=
  (40 <? List.length (split reSpaces s))%nat.

Definition fleschScore (text : jsstring) : Q :=
  let sentences := splitIntoSentences text in
  let words := wordsOf text in
  let syllables := countTotalSyllables text in
  let avgWordsPerSentence :=
    ofNat (List.length words) / ofNat (List.length sentences) in
  let avgSyllablesPerWord :=
    inject_Z syllables / ofNat (List.length words) in
  206.835 - 1.015 * avgWordsPerSentence - 84.6 * avgSyllablesPerWord.

(** [longSentences / sentences.length] *)
Definition longSentenceFraction (text : jsstring) : Q :=
  let sentences := splitIntoSentences text in
  ofNat (List.length (filter isLongSentence sentences))
  / ofNat (List.length sentences).

Definition paragraphBonus (text : jsstring) : Q :=
  if (1 <? List.length (split reParagraph text))%nat then 5 else 0.

Definition calculateReadability (text : jsstring) : Q :=
  let sentences := splitIntoSentences text in
  let words := wordsOf text in
  if (List.length words =? 0)%nat || (List.length sentences =? 0)%nat then 0
  else
    let readabilityScore := clamp (fleschScore text) 0 100 in
    let longSentencePenalty := longSentenceFraction text * 20 in
    clamp (readabilityScore - longSentencePenalty + paragraphBonus text)
          0 100.

(** **** Length appropriateness *)

(** [text.split(/\s+/).length]: empty tokens are counted. *)
Definition wordCount (text : jsstring) : Z :=
  Z.of_nat (List.length (split reSpaces text)).

(** The expected range: the assignments to [expectedMin] and
    [expectedMax], in the order of the source. *)
Definition expectedRange (prompt : jsstring) : Z * Z :=
  let promptWords := wordCount prompt in
  let range := (20, 500)%Z in
  let range :=
    if (promptWords <? 10)%Z then (30, 200)%Z
    else if (promptWords <? 30)%Z then (50, 400)%Z
    else (100, 800)%Z in
  let range := if test reListPrompt prompt then (50, 600)%Z else range in
  let range := if test reExplainPrompt prompt then (80, 500)%Z else range in
  let range := if test reChoicePrompt prompt then (20, 150)%Z else range in
  range.

Definition expectedMin (prompt : jsstring) : Z := fst (expectedRange prompt).
Definition expectedMax (prompt : jsstring) : Z := snd (expectedRange prompt).

Definition calculateLengthAppropriateness (prompt response : jsstring) : Q :=
  let responseWords := wordCount response in
  let expectedMin := expectedMin prompt in
  let expectedMax := expectedMax prompt in
  let score :=
    if (responseWords <? expectedMin)%Z then
      let shortfall := (expectedMin - responseWords)%Z in
      Qmax 0 (100 - inject_Z shortfall / inject_Z expectedMin * 80)
    else if (expectedMax <? responseWords)%Z then
      let excess := (responseWords - expectedMax)%Z in
      Qmax 0 (100 - inject_Z excess / inject_Z expectedMax * 50)
    else 100 in
  clamp score 0 100.

(** **** Structural quality *)

(** The adjustments that [calculateStructuralQuality] applies to [score], one
    definition for each, in the order of the source. *)

(** [if (paragraphs.length > 1) score += Math.min(paragraphs.length * 3, 15)] *)
Definition paragraphScore (text : jsstring) : Q :=
  let paragraphs := split reParagraph text in
  if (1 <? List.length paragraphs)%nat
  then ofNat (Nat.min (List.length paragraphs * 3) 15) else 0.

(** [if (listMatches && listMatches.length >= 2) score += 10] *)
Definition listScore (text : jsstring) : Q :=
  if (2 <=? matchCount reList text)%nat then 10 else 0.

(** [if (/```[\s\S]*```|`[^`]+`/.test(text)) score += 5] *)
Definition codeScore (text : jsstring) : Q :=
  if test reCode text then 5 else 0.

(** [if (/^#{1,6}\s+.+$/m.test(text) || /^[A-Z][^.!?]+:$/m.test(text))
    score += 5] *)
Definition headerScore (text : jsstring) : Q :=
  if test reHeader text || test reLabel text then 5 else 0.

(** [sentences.filter((s) => /[.!?]$/.test(s.trim())).length] *)
Definition properlyEnded (text : jsstring) : nat :=
  List.length (filter (fun s => test reEndsTerminated (trim s))
                      (splitIntoSentences text)).

(** [if (sentences.length > 0)
      score += (properlyEnded / sentences.length) * 10] *)
Definition punctuationScore (text : jsstring) : Q :=
  let sentences := splitIntoSentences text in
  if (0 <? List.length sentences)%nat
  then ofNat (properlyEnded text) / ofNat (List.length sentences) * 10
  else 0.

(** [(text.match(/\n{4,}/g) || []).length] *)
Definition excessiveBreaks (text : jsstring) : nat :=
  matchCount reBreaks text.

(** [(text.match(/\(/g) || []).length] and the same for [/\)/g] *)
Definition openParens (text : jsstring) : nat := matchCount reOpenParen text.
Definition closeParens (text : jsstring) : nat :=
  matchCount reCloseParen text.

(** [if (openParens === closeParens) score += 5] *)
Definition parenScore (text : jsstring) : Q :=
  if (openParens text =? closeParens text)%nat then 5 else 0.

(** The value of [score] before the final clamp. *)
Definition structuralScore (text : jsstring) : Q :=
  let score := 60 in
  let score := score + paragraphScore text in
  let score := score + listScore text in
  let score := score + codeScore text in
  let score := score + headerScore text in
  let score := score + punctuationScore text in
  let score := score - ofNat (excessiveBreaks text) * 5 in
  let score := score + parenScore text in
  score.

Definition calculateStructuralQuality (text : jsstring) : Q :=
  clamp (structuralScore text) 0 100.

(** **** Aggregation *)

Definition calculateMetrics (prompt response : jsstring) : QualityMetrics :=
  let coherence := calculateCoherence response in
  let completeness := calculateCompleteness prompt response in
  let readability := calculateReadability response in
  let lengthAppropriatenss :=
    calculateLengthAppropriateness prompt response in
  let structuralQuality := calculateStructuralQuality response in
  let overall :=
    average [coherence; completeness; readability; lengthAppropriatenss;
             structuralQuality] in
  {| coherence := round coherence;
     completeness := round completeness;
     readability := round readability;
     lengthAppropriatenss := round lengthAppropriatenss;
     structuralQuality := round structuralQuality;
     overall := round overall |}.

End Analyzers.

(** Two texts with the same formatting signals apart from the
    parentheses: every adjustment of [calculateStructuralQuality] other than
    the one for balanced parentheses is the same for both. *)
Definition sameFormatting (text text' : jsstring) : Prop :=
  paragraphScore text' == paragraphScore text
  /\ listScore text' == listScore text
  /\ codeScore text' == codeScore text
  /\ headerScore text' == headerScore text
  /\ punctuationScore text' == punctuationScore text
  /\ excessiveBreaks text' = excessiveBreaks text.

(** Whitespace or one of '.', '!', '?'. *)
Definition spaceOrTerminator (c : N) : bool := isSpace c || isTerminator c.

(** *** Explanations *)

Record MetricExplanation : Type := {
  name : jsstring;
  score : Z;
  description : jsstring;
  details : jsstring
}.

Definition getCoherenceDetails (score : Z) : jsstring :=
  if (80 <=? score)%Z
  then lit "Excellent logical flow with strong connections between ideas."
  else if (60 <=? score)%Z
  then lit "Good coherence with mostly clear transitions."
  else if (40 <=? score)%Z
  then lit "Moderate coherence; some ideas could be better connected."
  else lit "Poor coherence; ideas seem disconnected or jumpy.".

Definition getCompletenessDetails (score : Z) : jsstring :=
  if (80 <=? score)%Z
  then lit "Thoroughly addresses all aspects of the prompt."
  else if (60 <=? score)%Z
  then lit "Covers most key points from the prompt."
  else if (40 <=? score)%Z
  then lit "Addresses some aspects but misses key points."
  else lit "Incomplete response; many prompt aspects not addressed.".

Definition getReadabilityDetails (score : Z) : jsstring :=
  if (80 <=? score)%Z
  then lit "Very easy to read and understand."
  else if (60 <=? score)%Z
  then lit "Moderately easy to read; appropriate complexity."
  else if (40 <=? score)%Z
  then lit "Somewhat difficult to read; complex sentences."
  else lit "Hard to read; overly complex or poorly structured.".

Definition getLengthDetails (score : Z) : jsstring :=
  if (80 <=? score)%Z
  then lit "Optimal length for the given prompt."
  else if (60 <=? score)%Z
  then lit "Reasonable length; slightly too short or long."
  else if (40 <=? score)%Z
  then lit "Length is noticeably inappropriate."
  else lit "Significantly too short or excessively verbose.".

Definition getStructuralDetails (score : Z) : jsstring :=
  if (80 <=? score)%Z
  then lit "Well-formatted with clear structure."
  else if (60 <=? score)%Z
  then lit "Good structure with minor formatting issues."
  else if (40 <=? score)%Z
  then lit "Basic structure; could use better formatting."
  else lit "Poor structure; lacks proper formatting.".

Definition getMetricExplanations (metrics : QualityMetrics)
  : list MetricExplanation :=
  [ {| name := lit "Coherence";
       score := coherence metrics;
       description := lit "Measures logical flow and topic consistency";
       details := getCoherenceDetails (coherence metrics) |};
    {| name := lit "Completeness";
       score := completeness metrics;
       description := lit "How well the response addresses the prompt";
       details := getCompletenessDetails (completeness metrics) |};
    {| name := lit "Readability";
       score := readability metrics;
       description := lit "How easy the text is to read and understand";
       details := getReadabilityDetails (readability metrics) |};
    {| name := lit "Length Appropriateness";
       score := lengthAppropriatenss metrics;
       description := lit "Whether the response length matches the prompt";
       details := getLengthDetails (lengthAppropriatenss metrics) |};
    {| name := lit "Structural Quality";
       score := structuralQuality metrics;
       description := lit "Formatting and organization quality";
       details := getStructuralDetails (structuralQuality metrics) |} ].

End Metrics.

(** ** The results page: [src/app/results/[id]/page.tsx] *)

Module ResultsPage.

Import JS Metrics.

Record LLMParameters : Type := {
  temperature : Q;
  topP : Q
}.

(** [generatedAt] is a [Date]: its time value in milliseconds. *)
Record LLMResponse : Type := {
  id : jsstring;
  content : jsstring;
  parameters : LLMParameters;
  metrics : QualityMetrics;
  generatedAt : Z;
  tokenCount : Z;
  model : jsstring
}.

(** [Array.prototype.reduce] without an initial value: the first element
    starts the accumulation, and an empty array throws a [TypeError]
    ([None]). *)
Definition reduce {A : Type} (f : A -> A -> A) (l : list A) : option A :=
  match l with
  | [] => None
  | x :: l' => Some (fold_left f l' x)
  end.

(** [experiment.responses.reduce((best, curr) =>
      curr.metrics.overall > best.metrics.overall ? curr : best)] *)
Definition bestResponse (responses : list LLMResponse) : option LLMResponse :=
  reduce (fun best curr =>
            if (overall (metrics best) <? overall (metrics curr))%Z
            then curr else best)
         responses.

End ResultsPage.

(** ** Properties of the numeric helpers *)

Module NumFacts.

Import Num.
Local Open Scope Q_scope.

Lemma clamp_cases (v lo hi : Q) :
  lo <= hi ->
  (v <= lo /\ clamp v lo hi == lo)
  \/ (lo <= v <= hi /\ clamp v lo hi == v)
  \/ (hi <= v /\ clamp v lo hi == hi).
Proof.
  intros Hle. unfold clamp.
  destruct (Q.max_spec v lo) as [[H1 E1] | [H1 E1]];
    destruct (Q.min_spec (Qmax v lo) hi) as [[H2 E2] | [H2 E2]];
    rewrite E2; rewrite E1 in *.
  - left. split; [lra | reflexivity].
  - left. split; lra.
  - right; left. split; [lra | reflexivity].
  - right; right. split; [lra | reflexivity].
Qed.

Lemma clamp_range (v lo hi : Q) : lo <= hi -> lo <= clamp v lo hi <= hi.
Proof.
  intros Hle.
  destruct (clamp_cases v lo hi Hle) as [[? E] | [[? E] | [? E]]]; rewrite E; lra.
Qed.

Lemma clamp_id (v lo hi : Q) : lo <= v <= hi -> clamp v lo hi == v.
Proof.
  intros H. assert (Hle : lo <= hi) by lra.
  destruct (clamp_cases v lo hi Hle) as [[? E] | [[? E] | [? E]]]; rewrite E; lra.
Qed.

Lemma clamp_mono (v w lo hi : Q) :
  lo <= hi -> v <= w -> clamp v lo hi <= clamp w lo hi.
Proof.
  intros Hle Hvw.
  destruct (clamp_cases v lo hi Hle) as [[? Ev] | [[? Ev] | [? Ev]]];
    destruct (clamp_cases w lo hi Hle) as [[? Ew] | [[? Ew] | [? Ew]]];
    rewrite Ev, Ew; lra.
Qed.

Lemma clamp_compat (v w lo hi : Q) : v == w -> clamp v lo hi == clamp w lo hi.
Proof. intros E. unfold clamp. now rewrite E. Qed.

Lemma max0_cases (x : Q) :
  (x <= 0 /\ Qmax 0 x == 0) \/ (0 <= x /\ Qmax 0 x == x).
Proof.
  destruct (Q.max_spec 0 x) as [[H E] | [H E]]; rewrite E.
  - right. split; [lra | reflexivity].
  - left. split; [lra | reflexivity].
Qed.

Lemma round_range (x : Q) : 0 <= x <= 100 -> (0 <= round x <= 100)%Z.
Proof.
  intros [H0 H100]. unfold round. split.
  - change 0%Z with (Qfloor (1 # 2)). apply Qfloor_resp_le. lra.
  - change 100%Z with (Qfloor (100 + (1 # 2))). apply Qfloor_resp_le. lra.
Qed.

Lemma round_compat (x y : Q) : x == y -> round x = round y.
Proof. intros E. unfold round. now rewrite E. Qed.

Lemma ofNat_nonneg (n : nat) : 0 <= ofNat n.
Proof.
  unfold ofNat. change 0 with (inject_Z 0). rewrite <- Zle_Qle. lia.
Qed.

Lemma ofNat_pos (n : nat) : (0 < n)%nat -> 0 < ofNat n.
Proof.
  intros H. unfold ofNat. change 0 with (inject_Z 0). rewrite <- Zlt_Qlt. lia.
Qed.

Lemma ofNat_le (n m : nat) : (n <= m)%nat -> ofNat n <= ofNat m.
Proof. intros H. unfold ofNat. rewrite <- Zle_Qle. lia. Qed.

(** The mean of five numbers, as [average] computes it. *)
Lemma average5 (a b c d e : Q) :
  average [a; b; c; d; e] == (a + b + c + d + e) / 5.
Proof. unfold average, sum, ofNat. simpl. field. Qed.

Lemma average5_range (a b c d e : Q) :
  0 <= a <= 100 -> 0 <= b <= 100 -> 0 <= c <= 100 -> 0 <= d <= 100 ->
  0 <= e <= 100 -> 0 <= average [a; b; c; d; e] <= 100.
Proof.
  intros. rewrite average5.
  assert (E : (a + b + c + d + e) / 5 == (a + b + c + d + e) * (1 # 5))
    by (field).
  rewrite E. lra.
Qed.

End NumFacts.

(** ** Properties of the matcher on the patterns of the source *)

Module JSFacts.

Import JS.

(** A greedy star on a class always matches, and never gives input back
    beyond what it was handed. *)
Lemma rep_star_matches (p : N -> bool) (s : jsstring) (prev : option N) :
  exists rest,
    rep p 0 None (fun _ rest => Some rest) prev s = Some rest
    /\ (List.length rest <= List.length s)%nat.
Proof.
  revert prev. induction s as [|c s IH]; intros prev.
  - exists []. split; [reflexivity | apply Nat.le_refl].
  - cbn [rep pred option_map]. destruct (p c).
    + destruct (IH (Some c)) as [rest [E Hlen]]. rewrite E.
      exists rest. split; [reflexivity |]. cbn [List.length]. lia.
    + exists (c :: s). split; [reflexivity | apply Nat.le_refl].
Qed.

(** [/[c]+/] at the cursor: it matches exactly when the next code unit is in
    the class, and the match is not empty. *)
Lemma matchAt_plus_none (p : N -> bool) (prev : option N) (c : N)
      (s : jsstring) :
  matchAt (Plus p) prev (c :: s) = None -> p c = false.
Proof.
  unfold matchAt, Plus. cbn [run rep pred option_map].
  destruct (p c); [| reflexivity].
  destruct (rep_star_matches p s (Some c)) as [rest [E _]]. rewrite E.
  discriminate.
Qed.

Lemma matchAt_plus_some (p : N -> bool) (prev : option N) (s rest : jsstring) :
  matchAt (Plus p) prev s = Some rest ->
  (List.length rest < List.length s)%nat.
Proof.
  unfold matchAt, Plus. destruct s as [|c s]; cbn [run rep pred option_map].
  - discriminate.
  - destruct (p c); [| discriminate].
    destruct (rep_star_matches p s (Some c)) as [rest' [E Hlen]]. rewrite E.
    intros H. injection H as <-. cbn [List.length]. lia.
Qed.

(** Splitting on [/[c]+/] leaves no code unit of the class in the pieces. *)
Lemma splitLoop_plus_pieces (p : N -> bool) (s : jsstring) :
  forall (skip : nat) (cur : jsstring) (prev : option N),
    forallb (fun c => negb (p c)) cur = true ->
    Forall (fun piece => forallb (fun c => negb (p c)) piece = true)
           (splitLoop (Plus p) skip cur prev s).
Proof.
  induction s as [|c s IH]; intros skip cur prev Hcur.
  - cbn [splitLoop]. constructor; [exact Hcur | constructor].
  - cbn [splitLoop]. destruct skip as [|n].
    + destruct (matchAt (Plus p) prev (c :: s)) as [rest|] eqn:E.
      * apply matchAt_plus_some in E.
        destruct (List.length (c :: s) - List.length rest)%nat as [|m] eqn:D;
          [lia |].
        constructor; [exact Hcur | apply IH; reflexivity].
      * apply matchAt_plus_none in E. apply IH.
        rewrite forallb_app, Hcur. cbn [forallb]. now rewrite E.
    + apply IH. exact Hcur.
Qed.

Lemma split_plus_pieces (p : N -> bool) (s : jsstring) :
  Forall (fun piece => forallb (fun c => negb (p c)) piece = true)
         (split (Plus p) s).
Proof.
  unfold split. destruct s as [|c s].
  - destruct (matchAt (Plus p) None []); repeat constructor.
  - apply splitLoop_plus_pieces. reflexivity.
Qed.

(** [trim] only removes code units. *)
Lemma trimStart_forallb (q : N -> bool) (s : jsstring) :
  forallb q s = true -> forallb q (trimStart s) = true.
Proof.
  induction s as [|c s IH]; [trivial |].
  cbn [trimStart]. destruct (isSpace c); [| trivial].
  cbn [forallb]. intros H. apply andb_true_iff in H as [_ H]. now apply IH.
Qed.

Lemma forallb_rev (q : N -> bool) (s : jsstring) :
  forallb q (rev s) = forallb q s.
Proof.
  induction s as [|c s IH]; [reflexivity |].
  cbn [rev forallb]. rewrite forallb_app, IH. cbn [forallb].
  rewrite andb_true_r. apply andb_comm.
Qed.

Lemma trim_forallb (q : N -> bool) (s : jsstring) :
  forallb q s = true -> forallb q (trim s) = true.
Proof.
  intros H. unfold trim. rewrite forallb_rev. apply trimStart_forallb.
  rewrite forallb_rev. now apply trimStart_forallb.
Qed.

(** [/[c]$/] finds nothing in a string without a code unit of the class. *)
Lemma test_class_at_end (p : N -> bool) (s : jsstring) :
  forallb (fun c => negb (p c)) s = true ->
  forall prev, testFrom (Seq (Cls p) (Eol false)) prev s = false.
Proof.
  induction s as [|c s IH]; intros H prev.
  - reflexivity.
  - cbn [forallb] in H. apply andb_true_iff in H as [Hc Hs].
    apply negb_true_iff in Hc.
    cbn [testFrom]. unfold matchAt. cbn [run]. rewrite Hc. now apply IH.
Qed.

(** [/c/g] counts the occurrences of the code unit. *)
Lemma matchCountFrom_class (p : N -> bool) (s : jsstring) :
  forall prev,
    matchCountFrom (Cls p) 0 prev s = List.length (filter p s).
Proof.
  induction s as [|c s IH]; intros prev; [reflexivity |].
  cbn [matchCountFrom filter]. unfold matchAt. cbn [run].
  destruct (p c).
  - cbn [List.length]. rewrite Nat.sub_succ_l, Nat.sub_diag by apply Nat.le_refl.
    cbn [pred]. now rewrite IH.
  - apply IH.
Qed.

Lemma matchCount_class (p : N -> bool) (s : jsstring) :
  matchCount (Cls p) s = List.length (filter p s).
Proof. apply matchCountFrom_class. Qed.

Lemma matchCount_class_insert (p : N -> bool) (a b : jsstring) (c : N) :
  matchCount (Cls p) (a ++ [c] ++ b)
  = ((if p c then 1 else 0) + matchCount (Cls p) (a ++ b))%nat.
Proof.
  rewrite !matchCount_class, !filter_app, !length_app. cbn [filter].
  destruct (p c); cbn [List.length]; lia.
Qed.

End JSFacts.

(** ** Properties of the analyzers *)

Module MetricsFacts.

Import JS Num NumFacts JSFacts Metrics.
Local Open Scope Q_scope.

(** *** The functions on small inputs *)

Example splitIntoSentences_trims_and_drops_empty :
  splitIntoSentences (lit " Hi there!  How are you?? ok ")
  = [lit "Hi there"; lit "How are you"; lit "ok"].
Proof. reflexivity. Qed.

Example split_spaces_keeps_empty_tokens :
  split reSpaces [] = [[]]
  /\ split reSpaces (lit " a  b ") = [[]; lit "a"; lit "b"; []].
Proof. split; reflexivity. Qed.

Example split_paragraphs_needs_two_newlines :
  split reParagraph (lit "a" ++ nl ++ nl ++ nl ++ lit "b" ++ nl ++ lit "c")
  = [lit "a"; lit "b" ++ nl ++ lit "c"].
Proof. reflexivity. Qed.

Example countSyllables_silent_e :
  countSyllables asciiLower (lit "Apple") = 1%Z
  /\ countSyllables asciiLower (lit "beautiful") = 3%Z
  /\ countSyllables asciiLower (lit "42") = 0%Z.
Proof. repeat split. Qed.

Example expectedRange_last_override_wins :
  expectedRange (lit "hi") = (30, 200)%Z
  /\ expectedRange (lit "Explain machine learning") = (80, 500)%Z
  /\ expectedRange (lit "List the steps to explain, yes or no")
     = (20, 150)%Z.
Proof. repeat split. Qed.

Example calculateMetrics_explain_machine_learning :
  calculateMetrics asciiLower (lit "Explain machine learning")
                   (lit "Machine learning is a field.")
  = {| coherence := 85; completeness := 40; readability := 83;
       lengthAppropriatenss := 25; structuralQuality := 65; overall := 60 |}.
Proof. vm_compute. reflexivity. Qed.

Section Ranges.
Variable toLowerCase : jsstring -> jsstring.

Lemma calculateCoherence_range (text : jsstring) :
  0 <= calculateCoherence toLowerCase text <= 100.
Proof.
  unfold calculateCoherence; cbv zeta.
  destruct (_ =? 0)%nat; [lra |].
  destruct (_ =? 1)%nat; [lra |].
  apply clamp_range; lra.
Qed.

Lemma calculateCompleteness_range (prompt response : jsstring) :
  0 <= calculateCompleteness toLowerCase prompt response <= 100.
Proof.
  unfold calculateCompleteness; cbv zeta.
  destruct (_ =? 0)%nat; [lra |].
  apply clamp_range; lra.
Qed.

Lemma calculateReadability_range (text : jsstring) :
  0 <= calculateReadability toLowerCase text <= 100.
Proof.
  unfold calculateReadability; cbv zeta.
  destruct (_ || _)%bool; [lra |].
  apply clamp_range; lra.
Qed.

Lemma calculateLengthAppropriateness_range (prompt response : jsstring) :
  0 <= calculateLengthAppropriateness prompt response <= 100.
Proof. unfold calculateLengthAppropriateness. apply clamp_range; lra. Qed.

Lemma calculateStructuralQuality_range (text : jsstring) :
  0 <= calculateStructuralQuality text <= 100.
Proof. unfold calculateStructuralQuality. apply clamp_range; lra. Qed.

(** C1. For every prompt and response, the five per-metric fields that
    [calculateMetrics] returns (coherence, completeness, readability,
    length appropriateness, structural quality) and the derived [overall]
    field all lie between 0 and 100. *)
Theorem calculateMetrics_fields_in_range (prompt response : jsstring) :
  let m := calculateMetrics toLowerCase prompt response in
  (0 <= coherence m <= 100)%Z
  /\ (0 <= completeness m <= 100)%Z
  /\ (0 <= readability m <= 100)%Z
  /\ (0 <= lengthAppropriatenss m <= 100)%Z
  /\ (0 <= structuralQuality m <= 100)%Z
  /\ (0 <= overall m <= 100)%Z.
Proof.
  pose proof (calculateCoherence_range response) as Hc.
  pose proof (calculateCompleteness_range prompt response) as Hk.
  pose proof (calculateReadability_range response) as Hr.
  pose proof (calculateLengthAppropriateness_range prompt response) as Hl.
  pose proof (calculateStructuralQuality_range response) as Hs.
  cbv zeta. unfold calculateMetrics. cbn [coherence completeness readability
    lengthAppropriatenss structuralQuality overall].
  repeat split; try (apply round_range; assumption);
    apply round_range, average5_range; assumption.
Qed.

(** The unrounded mean that [calculateMetrics] rounds into [overall]. *)
Lemma overall_unrounded (prompt response : jsstring) :
  overall (calculateMetrics toLowerCase prompt response)
  = round ((calculateCoherence toLowerCase response
            + calculateCompleteness toLowerCase prompt response
            + calculateReadability toLowerCase response
            + calculateLengthAppropriateness prompt response
            + calculateStructuralQuality response) / 5).
Proof.
  unfold calculateMetrics. cbn [overall]. apply round_compat, average5.
Qed.

End Ranges.

(** C2. For every prompt and response, [overall] is the arithmetic mean of
    the five unrounded analyzer scores, rounded to the nearest integer; the
    mean is taken over the raw scores and not over the rounded per-metric
    fields, and the two differ for some input. *)
Theorem overall_rounds_mean_of_unrounded_scores :
  (forall toLowerCase prompt response,
      overall (calculateMetrics toLowerCase prompt response)
      = round ((calculateCoherence toLowerCase response
                + calculateCompleteness toLowerCase prompt response
                + calculateReadability toLowerCase response
                + calculateLengthAppropriateness prompt response
                + calculateStructuralQuality response) / 5))
  /\ (exists prompt response,
        let m := calculateMetrics asciiLower prompt response in
        overall m
        <> round (inject_Z (coherence m + completeness m + readability m
                            + lengthAppropriatenss m + structuralQuality m)
                  / 5)).
Proof.
  split.
  - intros. apply overall_unrounded.
  - exists (lit "hi"), (lit "cats jump high. cats jump fast now").
    vm_compute. discriminate.
Qed.

Section Thresholds.
Variable toLowerCase : jsstring -> jsstring.

(** C5. [calculateCoherence] returns 0 for a text that splits into no
    sentence and 85 for a text that splits into exactly one sentence. *)
Theorem calculateCoherence_zero_or_one_sentence (text : jsstring) :
  (List.length (splitIntoSentences text) = 0%nat ->
   calculateCoherence toLowerCase text == 0)
  /\ (List.length (splitIntoSentences text) = 1%nat ->
      calculateCoherence toLowerCase text == 85).
Proof.
  unfold calculateCoherence; cbv zeta. split; intros ->; reflexivity.
Qed.

(** C6. When every lower-cased whitespace token of the prompt is at most 3
    characters long or a stop word, [calculateCompleteness] returns 75
    whatever the response. *)
Theorem calculateCompleteness_without_key_terms
        (prompt response : jsstring) :
  (forall w, In w (split reSpaces (toLowerCase prompt)) ->
             (3 < List.length w)%nat -> isCommonWord toLowerCase w = true) ->
  calculateCompleteness toLowerCase prompt response == 75.
Proof.
  intros H. unfold calculateCompleteness; cbv zeta.
  assert (E : promptTerms toLowerCase prompt = []).
  { unfold promptTerms.
    induction (split reSpaces (toLowerCase prompt)) as [|w l IH];
      [reflexivity |].
    cbn [filter]. destruct (longerThan3 w) eqn:Hlen.
    - apply Nat.ltb_lt in Hlen. cbn [filter].
      rewrite (H w (or_introl eq_refl) Hlen). cbn [negb].
      apply IH. intros w' Hin. apply H. now right.
    - apply IH. intros w' Hin. apply H. now right. }
  rewrite E. reflexivity.
Qed.

End Thresholds.

(** C10. [calculateStructuralQuality] of the empty string is 65: the base 60
    and the 5 of the balanced parentheses, every other adjustment being 0. *)
Theorem calculateStructuralQuality_empty :
  calculateStructuralQuality [] == 65
  /\ paragraphScore [] == 0 /\ listScore [] == 0 /\ codeScore [] == 0
  /\ headerScore [] == 0 /\ punctuationScore [] == 0
  /\ excessiveBreaks [] = 0%nat
  /\ openParens [] = 0%nat /\ closeParens [] = 0%nat /\ parenScore [] == 5.
Proof. repeat apply conj; vm_compute; reflexivity. Qed.

(** *** Length appropriateness *)

Lemma expectedRange_cases (prompt : jsstring) :
  In (expectedRange prompt)
     [(30, 200); (50, 400); (100, 800); (50, 600); (80, 500); (20, 150)]%Z.
Proof.
  unfold expectedRange; cbv zeta.
  destruct (test reChoicePrompt prompt); [simpl; tauto |].
  destruct (test reExplainPrompt prompt); [simpl; tauto |].
  destruct (test reListPrompt prompt); [simpl; tauto |].
  destruct (wordCount prompt <? 10)%Z; [simpl; tauto |].
  destruct (wordCount prompt <? 30)%Z; simpl; tauto.
Qed.

Lemma expectedRange_bounds (prompt : jsstring) :
  (20 <= expectedMin prompt <= 100)%Z
  /\ (expectedMin prompt < expectedMax prompt)%Z.
Proof.
  unfold expectedMin, expectedMax.
  pose proof (expectedRange_cases prompt) as H. simpl in H.
  repeat (destruct H as [H | H]; [rewrite <- H; simpl; lia |]).
  contradiction.
Qed.

Lemma wordCount_nonneg (text : jsstring) : (0 <= wordCount text)%Z.
Proof. unfold wordCount. lia. Qed.

(** The score below the band, in the band and above it. *)
Lemma length_score_short (prompt response : jsstring) :
  (wordCount response < expectedMin prompt)%Z ->
  calculateLengthAppropriateness prompt response
  == 100 - inject_Z (expectedMin prompt - wordCount response)
           / inject_Z (expectedMin prompt) * 80.
Proof.
  intros Hlt. unfold calculateLengthAppropriateness; cbv zeta.
  apply Z.ltb_lt in Hlt as Hb. rewrite Hb.
  pose proof (expectedRange_bounds prompt) as [[Hlo _] _].
  pose proof (wordCount_nonneg response) as Hw.
  set (lo := expectedMin prompt) in *. set (w := wordCount response) in *.
  assert (HL : 0 < inject_Z lo) by (change 0 with (inject_Z 0);
                                     rewrite <- Zlt_Qlt; lia).
  assert (H1 : 0 <= inject_Z (lo - w) / inject_Z lo).
  { apply Qle_shift_div_l; [exact HL |]. rewrite Qmult_0_l.
    change 0 with (inject_Z 0). rewrite <- Zle_Qle. lia. }
  assert (H2 : inject_Z (lo - w) / inject_Z lo <= 1).
  { apply Qle_shift_div_r; [exact HL |]. rewrite Qmult_1_l.
    rewrite <- Zle_Qle. lia. }
  destruct (max0_cases (100 - inject_Z (lo - w) / inject_Z lo * 80))
    as [[H E] | [H E]]; [lra |].
  rewrite (clamp_compat _ _ 0 100 E). apply clamp_id. lra.
Qed.

Lemma length_score_long (prompt response : jsstring) :
  (expectedMax prompt < wordCount response)%Z ->
  calculateLengthAppropriateness prompt response
  == Qmax 0 (100 - inject_Z (wordCount response - expectedMax prompt)
                   / inject_Z (expectedMax prompt) * 50).
Proof.
  intros Hlt. unfold calculateLengthAppropriateness; cbv zeta.
  pose proof (expectedRange_bounds prompt) as [[Hlo _] Hhi].
  set (lo := expectedMin prompt) in *. set (hi := expectedMax prompt) in *.
  set (w := wordCount response) in *.
  assert (Hb1 : (w <? lo)%Z = false) by (apply Z.ltb_ge; lia).
  assert (Hb2 : (hi <? w)%Z = true) by (apply Z.ltb_lt; lia).
  rewrite Hb1, Hb2.
  assert (HL : 0 < inject_Z hi) by (change 0 with (inject_Z 0);
                                     rewrite <- Zlt_Qlt; lia).
  assert (H1 : 0 <= inject_Z (w - hi) / inject_Z hi).
  { apply Qle_shift_div_l; [exact HL |]. rewrite Qmult_0_l.
    change 0 with (inject_Z 0). rewrite <- Zle_Qle. lia. }
  apply clamp_id.
  destruct (max0_cases (100 - inject_Z (w - hi) / inject_Z hi * 50))
    as [[H E] | [H E]]; rewrite E; lra.
Qed.

Lemma length_score_in_band (prompt response : jsstring) :
  (expectedMin prompt <= wordCount response <= expectedMax prompt)%Z ->
  calculateLengthAppropriateness prompt response == 100.
Proof.
  intros [H1 H2]. unfold calculateLengthAppropriateness; cbv zeta.
  apply Z.ltb_ge in H1. apply Z.ltb_ge in H2. rewrite H1, H2.
  apply clamp_id. lra.
Qed.

(** [x / c] grows with [x] for a positive [c]. *)
Lemma Qdiv_lt_compat (x y c : Q) : 0 < c -> x < y -> x / c < y / c.
Proof.
  intros Hc Hxy. apply Qlt_shift_div_l; [exact Hc |].
  assert (E : x / c * c == x) by (field; lra). rewrite E. exact Hxy.
Qed.

Lemma inject_Z_pos (z : Z) : (0 < z)%Z -> 0 < inject_Z z.
Proof. intros H. change 0 with (inject_Z 0). now rewrite <- Zlt_Qlt. Qed.

(** X17. In terms of the count that the code uses, the number of pieces of
    [response.split(/\s+/)] with the empty pieces included:
    [calculateLengthAppropriateness] returns 100 exactly when that count lies
    in the band [expectedMin, expectedMax] computed from the prompt; below
    the band a response with a smaller count scores strictly less, above the
    band a response with a larger count scores no more (strictly less until
    the score reaches 0), and the score is never negative: it is 0 from three
    times [expectedMax] on. *)
Theorem calculateLengthAppropriateness_band (prompt : jsstring) :
  (forall response,
      (calculateLengthAppropriateness prompt response == 100 <->
       (expectedMin prompt <= wordCount response <= expectedMax prompt)%Z)
      /\ 0 <= calculateLengthAppropriateness prompt response)
  /\ (forall r1 r2,
        (wordCount r1 < wordCount r2 < expectedMin prompt)%Z ->
        calculateLengthAppropriateness prompt r1
        < calculateLengthAppropriateness prompt r2)
  /\ (forall r1 r2,
        (expectedMax prompt < wordCount r1 < wordCount r2)%Z ->
        calculateLengthAppropriateness prompt r2
        <= calculateLengthAppropriateness prompt r1
        /\ (0 < calculateLengthAppropriateness prompt r1 ->
            calculateLengthAppropriateness prompt r2
            < calculateLengthAppropriateness prompt r1))
  /\ (forall r,
        (3 * expectedMax prompt <= wordCount r)%Z ->
        calculateLengthAppropriateness prompt r == 0).
Proof.
  pose proof (expectedRange_bounds prompt) as [[Hlo _] Hhi].
  assert (HL : 0 < inject_Z (expectedMin prompt)) by (apply inject_Z_pos; lia).
  assert (HH : 0 < inject_Z (expectedMax prompt)) by (apply inject_Z_pos; lia).
  repeat apply conj.
  - intros response. split; [split |].
    + intros E.
      destruct (Z.lt_ge_cases (wordCount response) (expectedMin prompt))
        as [Hs | Hs].
      * exfalso. rewrite (length_score_short _ _ Hs) in E.
        assert (0 < inject_Z (expectedMin prompt - wordCount response)
                    / inject_Z (expectedMin prompt)).
        { apply Qlt_shift_div_l; [exact HL |]. rewrite Qmult_0_l.
          apply inject_Z_pos. lia. }
        lra.
      * split; [exact Hs |].
        destruct (Z.lt_ge_cases (expectedMax prompt) (wordCount response))
          as [Hl | Hl]; [exfalso | lia].
        rewrite (length_score_long _ _ Hl) in E.
        assert (0 < inject_Z (wordCount response - expectedMax prompt)
                    / inject_Z (expectedMax prompt)).
        { apply Qlt_shift_div_l; [exact HH |]. rewrite Qmult_0_l.
          apply inject_Z_pos. lia. }
        destruct (max0_cases
                    (100 - inject_Z (wordCount response - expectedMax prompt)
                           / inject_Z (expectedMax prompt) * 50))
          as [[? E'] | [? E']]; rewrite E' in E; lra.
    + apply length_score_in_band.
    + apply calculateLengthAppropriateness_range.
  - intros r1 r2 [H12 H2].
    rewrite (length_score_short prompt r1) by lia.
    rewrite (length_score_short prompt r2) by lia.
    assert (inject_Z (expectedMin prompt - wordCount r2)
            / inject_Z (expectedMin prompt)
            < inject_Z (expectedMin prompt - wordCount r1)
              / inject_Z (expectedMin prompt)).
    { apply Qdiv_lt_compat; [exact HL |]. rewrite <- Zlt_Qlt. lia. }
    lra.
  - intros r1 r2 [H1 H12].
    rewrite (length_score_long prompt r1) by lia.
    rewrite (length_score_long prompt r2) by lia.
    assert (inject_Z (wordCount r1 - expectedMax prompt)
            / inject_Z (expectedMax prompt)
            < inject_Z (wordCount r2 - expectedMax prompt)
              / inject_Z (expectedMax prompt)).
    { apply Qdiv_lt_compat; [exact HH |]. rewrite <- Zlt_Qlt. lia. }
    destruct (max0_cases
                (100 - inject_Z (wordCount r1 - expectedMax prompt)
                       / inject_Z (expectedMax prompt) * 50))
      as [[? E1] | [? E1]];
      destruct (max0_cases
                  (100 - inject_Z (wordCount r2 - expectedMax prompt)
                         / inject_Z (expectedMax prompt) * 50))
      as [[? E2] | [? E2]]; rewrite E1, E2; split; intros; lra.
  - intros r Hr.
    rewrite (length_score_long prompt r) by lia.
    assert (2 <= inject_Z (wordCount r - expectedMax prompt)
                 / inject_Z (expectedMax prompt)).
    { apply Qle_shift_div_l; [exact HH |].
      change 2 with (inject_Z 2). rewrite <- inject_Z_mult, <- Zle_Qle. lia. }
    destruct (max0_cases
                (100 - inject_Z (wordCount r - expectedMax prompt)
                       / inject_Z (expectedMax prompt) * 50))
      as [[? E] | [? E]]; rewrite E; lra.
Qed.

(** C9. Splitting on whitespace keeps empty tokens, so the empty response
    counts as one word; hence, for every prompt, the length-appropriateness
    score of the empty response is strictly greater than 20, and never 0. *)
Theorem calculateLengthAppropriateness_empty_response (prompt : jsstring) :
  wordCount [] = 1%Z
  /\ 20 < calculateLengthAppropriateness prompt []
  /\ ~ calculateLengthAppropriateness prompt [] == 0.
Proof.
  pose proof (expectedRange_bounds prompt) as [[Hlo _] _].
  assert (HL : 0 < inject_Z (expectedMin prompt)) by (apply inject_Z_pos; lia).
  assert (Hw : wordCount [] = 1%Z) by reflexivity.
  assert (H20 : 20 < calculateLengthAppropriateness prompt []).
  { rewrite length_score_short by (rewrite Hw; lia). rewrite Hw.
    assert (inject_Z (expectedMin prompt - 1) / inject_Z (expectedMin prompt)
            < 1).
    { apply Qlt_shift_div_r; [exact HL |]. rewrite Qmult_1_l.
      rewrite <- Zlt_Qlt. lia. }
    lra. }
  repeat split; [exact H20 |]. intros E. rewrite E in H20. lra.
Qed.

(** *** Readability *)

Section Readability.
Variable toLowerCase : jsstring -> jsstring.

(** Past the guard, the score is the clamped combination of the three
    factors. *)
Lemma calculateReadability_factors (text : jsstring) :
  wordsOf text <> [] -> splitIntoSentences text <> [] ->
  calculateReadability toLowerCase text
  = clamp (clamp (fleschScore toLowerCase text) 0 100
           - longSentenceFraction text * 20 + paragraphBonus text) 0 100.
Proof.
  intros Hw Hs. unfold calculateReadability; cbv zeta.
  destruct (wordsOf text); [contradiction |].
  destruct (splitIntoSentences text); [contradiction |].
  reflexivity.
Qed.

(** C8. [calculateReadability] returns 0 for the empty text; and between
    two texts that have words and sentences, the same clamped Flesch
    component and the same paragraph bonus, the one with the larger
    fraction of sentences of more than 40 words has the smaller or equal
    score. *)
Theorem calculateReadability_long_sentence_fraction :
  calculateReadability toLowerCase [] == 0
  /\ (forall t1 t2,
        wordsOf t1 <> [] -> splitIntoSentences t1 <> [] ->
        wordsOf t2 <> [] -> splitIntoSentences t2 <> [] ->
        clamp (fleschScore toLowerCase t1) 0 100
        == clamp (fleschScore toLowerCase t2) 0 100 ->
        paragraphBonus t1 == paragraphBonus t2 ->
        longSentenceFraction t1 <= longSentenceFraction t2 ->
        calculateReadability toLowerCase t2
        <= calculateReadability toLowerCase t1).
Proof.
  split; [reflexivity |].
  intros t1 t2 Hw1 Hs1 Hw2 Hs2 Hf Hp Hfrac.
  rewrite (calculateReadability_factors t1 Hw1 Hs1).
  rewrite (calculateReadability_factors t2 Hw2 Hs2).
  apply clamp_mono; lra.
Qed.

End Readability.

(** *** Structural quality *)

Lemma sentences_have_no_terminator (text : jsstring) :
  Forall (fun s => forallb (fun c => negb (isTerminator c)) s = true)
         (splitIntoSentences text).
Proof.
  unfold splitIntoSentences. apply Forall_forall. intros s Hin.
  apply filter_In in Hin as [Hin _].
  apply in_map_iff in Hin as [piece [<- Hin]].
  apply trim_forallb.
  pose proof (split_plus_pieces isTerminator text) as H.
  rewrite Forall_forall in H. now apply H.
Qed.

(** No sentence that [splitIntoSentences] returns passes the test
    [/[.!?]$/]: the split has consumed every terminator. *)
Lemma properlyEnded_zero (text : jsstring) : properlyEnded text = 0%nat.
Proof.
  unfold properlyEnded.
  pose proof (sentences_have_no_terminator text) as H.
  induction H as [|s l Hs _ IH]; [reflexivity |].
  cbn [filter]. unfold test, reEndsTerminated.
  rewrite test_class_at_end by now apply trim_forallb.
  exact IH.
Qed.

Lemma punctuationScore_zero (text : jsstring) : punctuationScore text == 0.
Proof.
  unfold punctuationScore; cbv zeta. rewrite properlyEnded_zero.
  destruct (0 <? _)%nat; [| reflexivity].
  unfold Qdiv. change (ofNat 0) with 0. now rewrite !Qmult_0_l.
Qed.

Lemma paragraphScore_range (text : jsstring) : 0 <= paragraphScore text <= 15.
Proof.
  unfold paragraphScore; cbv zeta. destruct (1 <? _)%nat; [| lra].
  split; [apply ofNat_nonneg |].
  change 15 with (ofNat 15). apply ofNat_le, Nat.le_min_r.
Qed.

Lemma structuralScore_le_100 (text : jsstring) : structuralScore text <= 100.
Proof.
  unfold structuralScore; cbv zeta.
  pose proof (paragraphScore_range text).
  pose proof (punctuationScore_zero text) as Ep. rewrite Ep.
  pose proof (ofNat_nonneg (excessiveBreaks text)).
  unfold listScore, codeScore, headerScore, parenScore.
  destruct (2 <=? _)%nat; destruct (test reCode text);
    destruct (_ || _)%bool; destruct (_ =? _)%nat; lra.
Qed.

(** C3. The punctuation term of [calculateStructuralQuality] is 0 for every
    text, because the test for a final terminator runs on sentences from
    which the split has already removed the terminators: the text "Hello."
    has one sentence, no properly ended one, and scores 65. *)
Theorem punctuation_term_is_always_zero :
  (forall text, properlyEnded text = 0%nat /\ punctuationScore text == 0)
  /\ splitIntoSentences (lit "Hello.") = [lit "Hello"]
  /\ calculateStructuralQuality (lit "Hello.") == 65.
Proof.
  split; [| split; [reflexivity | vm_compute; reflexivity]].
  intros text. split; [apply properlyEnded_zero | apply punctuationScore_zero].
Qed.

Lemma openParens_insert (a b : jsstring) :
  openParens (a ++ lit "(" ++ b) = S (openParens (a ++ b)).
Proof. unfold openParens, reOpenParen. apply matchCount_class_insert. Qed.

Lemma closeParens_insert (a b : jsstring) :
  closeParens (a ++ lit "(" ++ b) = closeParens (a ++ b).
Proof. unfold closeParens, reCloseParen. apply matchCount_class_insert. Qed.

(** C4, amended. When a text has as many '(' as ')' and one '(' is inserted
    somewhere in it without changing any other formatting signal, the
    structural-quality score becomes the original score minus 5, floored at
    0: exactly 5 lower when the original score is at least 5. *)
Theorem unmatched_paren_lowers_structural_quality (a b : jsstring) :
  openParens (a ++ b) = closeParens (a ++ b) ->
  sameFormatting (a ++ b) (a ++ lit "(" ++ b) ->
  calculateStructuralQuality (a ++ lit "(" ++ b)
  == Qmax 0 (calculateStructuralQuality (a ++ b) - 5)
  /\ (5 <= calculateStructuralQuality (a ++ b) ->
      calculateStructuralQuality (a ++ lit "(" ++ b)
      == calculateStructuralQuality (a ++ b) - 5).
Proof.
  intros Hbal (Hpar & Hlist & Hcode & Hhead & Hpunct & Hbreaks).
  pose proof (structuralScore_le_100 (a ++ b)) as Hmax.
  assert (E : structuralScore (a ++ lit "(" ++ b)
              == structuralScore (a ++ b) - 5).
  { unfold structuralScore; cbv zeta.
    rewrite Hpar, Hlist, Hcode, Hhead, Hpunct, Hbreaks.
    unfold parenScore.
    rewrite openParens_insert, closeParens_insert, Hbal, Nat.eqb_refl.
    replace (S (closeParens (a ++ b)) =? closeParens (a ++ b))%nat with false
      by (symmetry; apply Nat.eqb_neq; lia).
    ring. }
  unfold calculateStructuralQuality.
  rewrite (clamp_compat _ _ 0 100 E).
  set (raw := structuralScore (a ++ b)) in *.
  assert (H0 : 0 <= 100) by lra.
  destruct (clamp_cases raw 0 100 H0) as [[? E1] | [[? E1] | [? E1]]];
    destruct (clamp_cases (raw - 5) 0 100 H0) as [[? E2] | [[? E2] | [? E2]]];
    rewrite E1, E2;
    (split; [| intros; lra]);
    match goal with
    | |- _ == Qmax 0 ?x =>
      destruct (max0_cases x) as [[? E3] | [? E3]]; rewrite E3; lra
    end.
Qed.

(** At the floor of the clamp the score cannot drop by 5: sixteen runs of
    four line breaks bring the unclamped score of a balanced text down to 0,
    and the same text with one more '(' also scores 0, not -5. *)
Lemma unmatched_paren_at_floor_counterexample :
  let a := List.concat (repeat (lit "a" ++ nl ++ nl ++ nl ++ nl) 16) ++ lit "a" in
  let b := [] in
  openParens (a ++ b) = closeParens (a ++ b)
  /\ sameFormatting (a ++ b) (a ++ lit "(" ++ b)
  /\ calculateStructuralQuality (a ++ b) == 0
  /\ calculateStructuralQuality (a ++ lit "(" ++ b) == 0
  /\ ~ calculateStructuralQuality (a ++ lit "(" ++ b)
        == calculateStructuralQuality (a ++ b) - 5.
Proof.
  cbv zeta. unfold sameFormatting.
  repeat apply conj; try (vm_compute; reflexivity).
  vm_compute. discriminate.
Qed.

(** *** The theorems at concrete inputs *)

Lemma unmatched_paren_lowers_structural_quality_witness :
  calculateStructuralQuality (lit "Hi " ++ lit "(" ++ lit "there")
  == calculateStructuralQuality (lit "Hi " ++ lit "there") - 5.
Proof.
  apply (unmatched_paren_lowers_structural_quality (lit "Hi ") (lit "there")).
  - vm_compute; reflexivity.
  - unfold sameFormatting; repeat apply conj; vm_compute; reflexivity.
  - vm_compute; discriminate.
Defined.

Lemma calculateCoherence_zero_or_one_sentence_witness :
  calculateCoherence asciiLower (lit "?!") == 0
  /\ calculateCoherence asciiLower (lit "Hello world.") == 85.
Proof.
  split.
  - apply (proj1 (calculateCoherence_zero_or_one_sentence
                    asciiLower (lit "?!"))).
    vm_compute; reflexivity.
  - apply (proj2 (calculateCoherence_zero_or_one_sentence
                    asciiLower (lit "Hello world."))).
    vm_compute; reflexivity.
Defined.

Lemma calculateCompleteness_without_key_terms_witness :
  calculateCompleteness asciiLower (lit "What is that")
                        (lit "It is a question.") == 75.
Proof.
  apply (calculateCompleteness_without_key_terms asciiLower).
  intros w Hin Hlen. vm_compute in Hin.
  destruct Hin as [<- | [<- | [<- | []]]];
    first [simpl in Hlen; lia | vm_compute; reflexivity].
Defined.

Lemma calculateLengthAppropriateness_band_witness :
  calculateLengthAppropriateness (lit "hi") (List.concat (repeat (lit "a ") 30))
  == 100
  /\ calculateLengthAppropriateness (lit "hi") []
     < calculateLengthAppropriateness (lit "hi") (lit "a b")
  /\ calculateLengthAppropriateness (lit "hi") (List.concat (repeat (lit "a ") 400))
     < calculateLengthAppropriateness (lit "hi")
                                      (List.concat (repeat (lit "a ") 300))
  /\ calculateLengthAppropriateness (lit "hi") (List.concat (repeat (lit "a ") 600))
     == 0.
Proof.
  pose proof (calculateLengthAppropriateness_band (lit "hi"))
    as (Hband & Hshort & Hlong & Hfloor).
  repeat apply conj.
  - apply (proj1 (Hband _)). vm_compute. split; discriminate.
  - apply Hshort. vm_compute. split; reflexivity.
  - apply Hlong.
    + vm_compute. split; reflexivity.
    + vm_compute. reflexivity.
  - apply Hfloor. vm_compute. discriminate.
Defined.

Lemma calculateReadability_long_sentence_fraction_witness :
  calculateReadability asciiLower
                       (List.concat (repeat (lit "go ") 41) ++ lit ". go")
  <= calculateReadability asciiLower (lit "go. go").
Proof.
  apply (proj2 (calculateReadability_long_sentence_fraction asciiLower)).
  - vm_compute; discriminate.
  - vm_compute; discriminate.
  - vm_compute; discriminate.
  - vm_compute; discriminate.
  - vm_compute; reflexivity.
  - vm_compute; reflexivity.
  - vm_compute; discriminate.
Defined.

(** C7. The score is not decided by the number of words of the response:
    [calculateLengthAppropriateness] counts the pieces of [split(/\s+/)]
    without dropping the empty ones, which [calculateReadability] drops.  For
    the prompt "hi", whose band is 30 to 200, a response of 200 words
    followed by a space counts as 201 and scores 399/4, and a response of 28
    words between two line feeds counts as 30 and scores 100. *)
Theorem calculateLengthAppropriateness_counts_empty_tokens :
  let prompt := lit "hi" in
  let long := List.concat (repeat (lit "a ") 200) in
  let short := nl ++ List.concat (repeat (lit "a ") 27) ++ lit "a" ++ nl in
  expectedRange prompt = (30, 200)%Z
  /\ List.length (wordsOf long) = 200%nat
  /\ wordCount long = 201%Z
  /\ calculateLengthAppropriateness prompt long == 399 # 4
  /\ List.length (wordsOf short) = 28%nat
  /\ wordCount short = 30%Z
  /\ calculateLengthAppropriateness prompt short == 100.
Proof. cbv zeta. repeat apply conj; vm_compute; reflexivity. Qed.

End MetricsFacts.

(** ** More properties of the string operations *)

Module TokenizerFacts.

Import JS JSFacts.

(** *** [trim] *)

Lemma trimStart_split (s : jsstring) :
  exists sp, s = sp ++ trimStart s /\ forallb isSpace sp = true.
Proof.
  induction s as [|c s [sp [E H]]].
  - exists []. split; reflexivity.
  - cbn [trimStart]. destruct (isSpace c) eqn:Hc.
    + exists (c :: sp). split; [cbn; now f_equal |].
      cbn [forallb]. now rewrite Hc.
    + exists []. split; reflexivity.
Qed.

Lemma trimStart_head (s : jsstring) (c : N) :
  hd_error (trimStart s) = Some c -> isSpace c = false.
Proof.
  induction s as [|x s IH]; [discriminate |].
  cbn [trimStart]. destruct (isSpace x) eqn:Hx; [exact IH |].
  cbn [hd_error]. intros H. injection H as <-. exact Hx.
Qed.

Lemma trimStart_keeps (s : jsstring) (c : N) :
  In c s -> isSpace c = false -> In c (trimStart s).
Proof.
  induction s as [|x s IH]; [trivial |].
  intros Hin Hc. cbn [trimStart]. destruct (isSpace x) eqn:Hx; [| exact Hin].
  destruct Hin as [-> | Hin]; [congruence | now apply IH].
Qed.

Lemma trimStart_spaces (s : jsstring) :
  forallb isSpace s = true -> trimStart s = [].
Proof.
  induction s as [|x s IH]; [reflexivity |].
  cbn [forallb trimStart]. intros H. apply andb_true_iff in H as [Hx Hs].
  rewrite Hx. now apply IH.
Qed.

Lemma trim_last (s : jsstring) (c : N) :
  hd_error (rev (trim s)) = Some c -> isSpace c = false.
Proof. unfold trim. rewrite rev_involutive. apply trimStart_head. Qed.

Lemma trim_head (s : jsstring) (c : N) :
  hd_error (trim s) = Some c -> isSpace c = false.
Proof.
  unfold trim.
  destruct (trimStart_split (rev (trimStart s))) as [sp [E _]].
  set (u := trimStart (rev (trimStart s))) in *.
  assert (Et : trimStart s = rev u ++ rev sp)
    by (rewrite <- rev_app_distr, <- E; symmetry; apply rev_involutive).
  intros H. apply (trimStart_head s). rewrite Et.
  destruct (rev u); [discriminate | exact H].
Qed.

Lemma trim_keeps (s : jsstring) (c : N) :
  In c s -> isSpace c = false -> In c (trim s).
Proof.
  intros Hin Hc. unfold trim. rewrite <- in_rev.
  apply trimStart_keeps; [| exact Hc]. rewrite <- in_rev.
  now apply trimStart_keeps.
Qed.

Lemma trim_spaces (s : jsstring) : forallb isSpace s = true -> trim s = [].
Proof. intros H. unfold trim. now rewrite (trimStart_spaces s H). Qed.

(** *** [split] *)

(** Whatever the separator, [split] returns at least one piece for a
    non-empty string. *)
Lemma splitLoop_nonempty (r : regex) (s : jsstring) :
  forall skip cur prev, splitLoop r skip cur prev s <> [].
Proof.
  induction s as [|c s IH]; intros skip cur prev; cbn [splitLoop].
  - discriminate.
  - destruct skip; [| apply IH].
    destruct (matchAt r prev (c :: s)); [| apply IH].
    destruct (List.length (c :: s) - List.length _)%nat;
      [destruct cur; [apply IH | discriminate] | discriminate].
Qed.

(** The code units of the pieces are code units of the string. *)
Lemma splitLoop_chars (P : N -> Prop) (r : regex) (s : jsstring) :
  forall skip cur prev,
    Forall P cur -> Forall P s ->
    Forall (Forall P) (splitLoop r skip cur prev s).
Proof.
  induction s as [|c s IH]; intros skip cur prev Hcur Hs; cbn [splitLoop].
  - repeat constructor. exact Hcur.
  - inversion Hs as [|? ? Hc Hs']; subst.
    destruct skip; [| now apply IH].
    destruct (matchAt r prev (c :: s)).
    + destruct (List.length (c :: s) - List.length _)%nat.
      * destruct cur; [apply IH; [repeat constructor; exact Hc | exact Hs'] |].
        constructor; [exact Hcur |].
        apply IH; [repeat constructor; exact Hc | exact Hs'].
      * constructor; [exact Hcur | apply IH; [constructor | exact Hs']].
    + apply IH; [| exact Hs'].
      apply Forall_app. split; [exact Hcur | repeat constructor; exact Hc].
Qed.

Lemma split_chars (P : N -> Prop) (r : regex) (s : jsstring) :
  Forall P s -> Forall (Forall P) (split r s).
Proof.
  intros Hs. unfold split. destruct s as [|c s].
  - destruct (matchAt r None []); repeat constructor.
  - apply splitLoop_chars; [constructor | exact Hs].
Qed.

(** Every piece is a contiguous part of the string. *)
Lemma splitLoop_infix (r : regex) (s : jsstring) :
  forall skip cur prev full pre,
    full = pre ++ cur ++ s ->
    (skip <> 0%nat -> cur = []) ->
    Forall (fun piece => infix piece full) (splitLoop r skip cur prev s).
Proof.
  induction s as [|c s IH]; intros skip cur prev full pre E Hskip;
    cbn [splitLoop].
  - repeat constructor. exists pre, []. exact E.
  - assert (Hcur : infix cur full) by (exists pre, (c :: s); exact E).
    destruct skip as [|n].
    + destruct (matchAt r prev (c :: s)).
      * destruct (List.length (c :: s) - List.length _)%nat.
        -- destruct cur as [|x cur].
           ++ apply (IH _ _ _ _ pre); [exact E | congruence].
           ++ constructor; [exact Hcur |].
              apply (IH _ _ _ _ (pre ++ x :: cur));
                [rewrite E, <- app_assoc; reflexivity | congruence].
        -- constructor; [exact Hcur |].
           apply (IH _ _ _ _ (pre ++ cur ++ [c])); [| reflexivity].
           rewrite E, <- !app_assoc. reflexivity.
      * apply (IH _ _ _ _ pre); [| congruence].
        rewrite E, <- !app_assoc. reflexivity.
    + rewrite (Hskip ltac:(discriminate)) in *.
      apply (IH _ _ _ _ (pre ++ [c])); [| reflexivity].
      rewrite E, <- !app_assoc. reflexivity.
Qed.

Lemma split_infix (r : regex) (s : jsstring) :
  Forall (fun piece => infix piece s) (split r s).
Proof.
  unfold split. destruct s as [|c s].
  - destruct (matchAt r None []); repeat constructor. exists [], []. reflexivity.
  - apply (splitLoop_infix r (c :: s) 0 [] None (c :: s) []);
      [reflexivity | congruence].
Qed.

(** *** [includes] *)

Lemma startsWith_app (w b : jsstring) : startsWith w (w ++ b) = true.
Proof.
  induction w as [|x w IH]; [reflexivity |].
  cbn [app startsWith]. now rewrite N.eqb_refl, IH.
Qed.

Lemma includes_unfold (s w : jsstring) :
  includes s w
  = (startsWith w s
     || match s with [] => false | _ :: s' => includes s' w end)%bool.
Proof. destruct s; reflexivity. Qed.

Lemma includes_infix (s w : jsstring) : infix w s -> includes s w = true.
Proof.
  intros [a [b ->]]. induction a as [|x a IH].
  - rewrite includes_unfold. cbn [app]. now rewrite startsWith_app.
  - cbn [app includes]. rewrite IH. apply orb_true_r.
Qed.

(** *** Splitting on [/[c]+/] *)

Lemma rep_star_prefix (p : N -> bool) (s rest : jsstring) (prev : option N) :
  rep p 0 None (fun _ rest => Some rest) prev s = Some rest ->
  exists m, s = m ++ rest /\ forallb p m = true.
Proof.
  revert prev. induction s as [|c s IH]; intros prev; cbn [rep pred option_map].
  - intros H. injection H as <-. exists []. split; reflexivity.
  - destruct (p c) eqn:Hc.
    + destruct (rep_star_matches p s (Some c)) as [rest' [E _]]. rewrite E.
      intros H. injection H as <-.
      destruct (IH _ E) as [m [-> Hm]].
      exists (c :: m). split; [reflexivity |]. cbn [forallb]. now rewrite Hc.
    + intros H. injection H as <-. exists []. split; reflexivity.
Qed.

Lemma matchAt_plus_prefix (p : N -> bool) (prev : option N)
      (s rest : jsstring) :
  matchAt (Plus p) prev s = Some rest ->
  exists m, s = m ++ rest /\ forallb p m = true.
Proof.
  unfold matchAt, Plus. destruct s as [|c s]; cbn [run rep pred option_map].
  - discriminate.
  - destruct (p c) eqn:Hc; [| discriminate].
    destruct (rep_star_matches p s (Some c)) as [rest' [E _]]. rewrite E.
    intros H. injection H as <-.
    destruct (rep_star_prefix p s rest' (Some c) E) as [m [-> Hm]].
    exists (c :: m). split; [reflexivity |]. cbn [forallb]. now rewrite Hc.
Qed.

(** A code unit outside the class survives the split: it is in a piece. *)
Lemma splitLoop_plus_covers (p : N -> bool) (c : N) (s : jsstring) :
  p c = false ->
  forall skip cur prev,
    In c (cur ++ s) ->
    forallb p (firstn skip s) = true ->
    exists piece, In piece (splitLoop (Plus p) skip cur prev s) /\ In c piece.
Proof.
  intros Hc. induction s as [|x s IH]; intros skip cur prev Hin Hskip;
    cbn [splitLoop].
  - rewrite app_nil_r in Hin. exists cur. split; [now left | exact Hin].
  - destruct skip as [|n].
    + destruct (matchAt (Plus p) prev (x :: s)) as [rest|] eqn:E.
      * pose proof (matchAt_plus_some p prev (x :: s) rest E) as Hlen.
        destruct (matchAt_plus_prefix p prev (x :: s) rest E) as [m [Em Hm]].
        destruct (List.length (x :: s) - List.length rest)%nat as [|k] eqn:D;
          [lia |].
        apply in_app_or in Hin as [Hin | Hin];
          [exists cur; split; [now left | exact Hin] |].
        destruct m as [|y m]; [cbn in Em; subst rest; lia |].
        cbn [app] in Em. injection Em as <- ->.
        cbn [forallb] in Hm. apply andb_true_iff in Hm as [Hx Hm].
        destruct Hin as [-> | Hin]; [congruence |].
        destruct (IH k [] (Some x)) as [piece [H1 H2]].
        -- exact Hin.
        -- assert (k = List.length m)
             by (cbn [List.length] in D; rewrite length_app in D; lia).
           subst k. now rewrite firstn_app, firstn_all, Nat.sub_diag,
                      firstn_O, app_nil_r.
        -- exists piece. split; [now right | exact H2].
      * apply IH; [| reflexivity]. now rewrite <- app_assoc.
    + cbn [firstn forallb] in Hskip. apply andb_true_iff in Hskip as [Hx Hn].
      apply IH; [| exact Hn].
      apply in_app_or in Hin as [Hin | [-> | Hin]];
        [apply in_or_app; now left | congruence | apply in_or_app; now right].
Qed.

Lemma split_plus_covers (p : N -> bool) (c : N) (s : jsstring) :
  p c = false -> In c s ->
  exists piece, In piece (split (Plus p) s) /\ In c piece.
Proof.
  intros Hc Hin. unfold split. destruct s as [|x s]; [contradiction |].
  now apply splitLoop_plus_covers.
Qed.

(** *** Counting matches *)

Lemma matchCountFrom_no_match (P : N -> Prop) (r : regex) :
  (forall prev t, Forall P t -> matchAt r prev t = None) ->
  forall s prev, Forall P s -> matchCountFrom r 0 prev s = 0%nat.
Proof.
  intros Hnone. induction s as [|c s IH]; intros prev Hs;
    cbn [matchCountFrom]; rewrite (Hnone _ _ Hs); [reflexivity |].
  inversion Hs; subst. now apply IH.
Qed.

(** *** Sets of words *)

Lemma beqs_eq (a b : jsstring) : beqs a b = true <-> a = b.
Proof.
  revert b; induction a as [|x a IH]; intros [|y b]; cbn [beqs]; split;
    try congruence; try discriminate.
  - intros H. apply andb_true_iff in H as [H1 H2].
    apply N.eqb_eq in H1. apply IH in H2. congruence.
  - intros H. injection H as -> ->. rewrite N.eqb_refl. now apply IH.
Qed.

Lemma has_In (l : list jsstring) (w : jsstring) : has l w = true <-> In w l.
Proof.
  unfold has. rewrite existsb_exists. split.
  - intros [x [Hin Hx]]. apply beqs_eq in Hx. now subst.
  - intros Hin. exists w. split; [exact Hin | now apply beqs_eq].
Qed.

(** Adding words that are new and distinct appends them all. *)
Lemma newSet_fold_NoDup (l acc : list jsstring) :
  NoDup (acc ++ l) ->
  fold_left (fun acc w => if has acc w then acc else acc ++ [w]) l acc
  = acc ++ l.
Proof.
  revert acc. induction l as [|w l IH]; intros acc Hnd; cbn [fold_left].
  - now rewrite app_nil_r.
  - destruct (has acc w) eqn:Hw.
    + apply has_In in Hw. apply NoDup_remove_2 in Hnd.
      exfalso. apply Hnd, in_or_app. now left.
    + rewrite IH; rewrite <- app_assoc; [reflexivity | exact Hnd].
Qed.

Lemma newSet_fold_keeps_NoDup (l acc : list jsstring) :
  NoDup acc ->
  NoDup (fold_left (fun acc w => if has acc w then acc else acc ++ [w]) l acc).
Proof.
  revert acc. induction l as [|w l IH]; intros acc Hnd; cbn [fold_left];
    [exact Hnd |].
  apply IH. destruct (has acc w) eqn:Hw; [exact Hnd |].
  apply NoDup_app; [exact Hnd | repeat constructor; intros [] |].
  intros x Hx [<- | []]. apply has_In in Hx. congruence.
Qed.

Lemma newSet_fold_length (l acc : list jsstring) :
  (List.length acc
   <= List.length
        (fold_left (fun acc w => if has acc w then acc else acc ++ [w]) l acc))
    %nat.
Proof.
  revert acc. induction l as [|w l IH]; intros acc; cbn [fold_left];
    [apply Nat.le_refl |].
  eapply Nat.le_trans; [| apply IH].
  destruct (has acc w); [apply Nat.le_refl |]. rewrite length_app. lia.
Qed.

Lemma newSet_NoDup (l : list jsstring) : NoDup (newSet l).
Proof. apply newSet_fold_keeps_NoDup. constructor. Qed.

Lemma newSet_idempotent (l : list jsstring) : newSet (newSet l) = newSet l.
Proof.
  unfold newSet at 1. apply (newSet_fold_NoDup (newSet l) []).
  apply newSet_NoDup.
Qed.

Lemma newSet_nonempty (l : list jsstring) :
  l <> [] -> (1 <= List.length (newSet l))%nat.
Proof.
  destruct l as [|w l]; [congruence |]. intros _.
  unfold newSet. cbn [fold_left has existsb app].
  eapply Nat.le_trans; [| apply newSet_fold_length]. apply Nat.le_refl.
Qed.

Lemma filter_has_self (l : list jsstring) : filter (has l) l = l.
Proof.
  assert (H : forall m, (forall w, In w m -> In w l) -> filter (has l) m = m).
  { induction m as [|w m IH]; intros Hm; [reflexivity |].
    cbn [filter]. rewrite (proj2 (has_In l w)) by (apply Hm; now left).
    f_equal. apply IH. intros v Hv. apply Hm. now right. }
  apply H. trivial.
Qed.

End TokenizerFacts.

(** ** Further properties of the analyzers *)

Module AnalyzerFacts.

Import JS Num NumFacts JSFacts TokenizerFacts Metrics MetricsFacts.
Local Open Scope Q_scope.

(** *** Sentences *)

Lemma forallb_false_witness (f : N -> bool) (s : jsstring) :
  forallb f s = false -> exists c, In c s /\ f c = false.
Proof.
  induction s as [|x s IH]; [discriminate |].
  cbn [forallb]. destruct (f x) eqn:Hx.
  - intros H. destruct (IH H) as [c [Hin Hc]]. exists c. split; [now right | exact Hc].
  - intros _. exists x. split; [now left | exact Hx].
Qed.

(** X1. Every sentence that [splitIntoSentences] returns is non-empty,
    begins and ends with a code unit that is not whitespace, and contains
    none of '.', '!' and '?'. *)
Theorem splitIntoSentences_sentences_are_trimmed (text : jsstring) :
  Forall (fun s =>
            match s with [] => False | c :: _ => isSpace c = false end
            /\ match rev s with [] => False | c :: _ => isSpace c = false end
            /\ forallb notTerminator s = true)
         (splitIntoSentences text).
Proof.
  pose proof (sentences_have_no_terminator text) as Hterm.
  rewrite Forall_forall in Hterm. apply Forall_forall. intros s Hin.
  specialize (Hterm s Hin). unfold splitIntoSentences in Hin.
  apply filter_In in Hin as [Hin Hlen].
  apply in_map_iff in Hin as [piece [<- _]].
  apply Nat.ltb_lt in Hlen.
  repeat apply conj; [| | exact Hterm].
  - pose proof (trim_head piece) as H.
    destruct (trim piece) as [|c t]; [cbn in Hlen; lia |]. now apply H.
  - pose proof (trim_last piece) as H. rewrite <- length_rev in Hlen.
    destruct (rev (trim piece)) as [|c t]; [cbn in Hlen; lia |]. now apply H.
Qed.

(** X2. A text has no sentence exactly when it consists of whitespace and
    the terminators '.', '!' and '?' only. *)
Theorem splitIntoSentences_empty_iff (text : jsstring) :
  splitIntoSentences text = [] <-> forallb spaceOrTerminator text = true.
Proof.
  split.
  - intros Hnone. destruct (forallb spaceOrTerminator text) eqn:Hall;
      [reflexivity | exfalso].
    destruct (forallb_false_witness _ _ Hall) as [c [Hin Hc]].
    apply orb_false_iff in Hc as [Hsp Hterm].
    destruct (split_plus_covers isTerminator c text Hterm Hin)
      as [piece [Hpiece Hcp]].
    assert (Hs : In (trim piece) (splitIntoSentences text)).
    { unfold splitIntoSentences. apply filter_In. split.
      - apply in_map. exact Hpiece.
      - apply Nat.ltb_lt. pose proof (trim_keeps piece c Hcp Hsp) as H.
        destruct (trim piece); [contradiction | cbn; lia]. }
    rewrite Hnone in Hs. contradiction.
  - intros Hall. unfold splitIntoSentences.
    assert (Hch : Forall (fun c => spaceOrTerminator c = true) text)
      by (apply Forall_forall; now apply forallb_forall).
    pose proof (split_chars _ reTerminators text Hch) as H1.
    pose proof (split_plus_pieces isTerminator text) as H2.
    fold reTerminators in H2.
    induction (split reTerminators text) as [|piece l IH]; [reflexivity |].
    inversion H1 as [|? ? Hp1 Hl1]; inversion H2 as [|? ? Hp2 Hl2]; subst.
    cbn [map filter]. rewrite trim_spaces; [now apply IH |].
    apply forallb_forall. intros c Hc.
    rewrite Forall_forall in Hp1. specialize (Hp1 c Hc).
    rewrite forallb_forall in Hp2. specialize (Hp2 c Hc).
    unfold spaceOrTerminator in Hp1. apply negb_true_iff in Hp2.
    rewrite Hp2, orb_false_r in Hp1. exact Hp1.
Qed.

(** *** Coherence *)

Section Coherence.
Variable toLowerCase : jsstring -> jsstring.

Lemma pairScore_range (a b : jsstring) : 0 <= pairScore toLowerCase a b <= 100.
Proof. unfold pairScore; cbv zeta. apply clamp_range; lra. Qed.

Lemma totalPairScore_lower (k : Q) (sentences : list jsstring) :
  (forall a b, In a sentences -> In b sentences ->
               k <= pairScore toLowerCase a b) ->
  forall acc,
    acc + k * ofNat (List.length sentences - 1)
    <= totalPairScore toLowerCase sentences acc.
Proof.
  induction sentences as [|a l IH]; intros Hk acc.
  - cbn. change (ofNat 0) with 0. lra.
  - destruct l as [|b l'].
    + cbn. change (ofNat 0) with 0. lra.
    + cbn [totalPairScore].
      assert (Hab : k <= pairScore toLowerCase a b)
        by (apply Hk; [now left | right; now left]).
      specialize (IH (fun x y Hx Hy => Hk x y (or_intror Hx) (or_intror Hy))
                     (acc + pairScore toLowerCase a b)).
      eapply Qle_trans; [| exact IH].
      assert (E : ofNat (List.length (a :: b :: l') - 1)
                  == ofNat (List.length (b :: l') - 1) + 1).
      { unfold ofNat. cbn [List.length]. rewrite !Nat.sub_succ, !Nat.sub_0_r.
        rewrite Nat2Z.inj_succ, <- Z.add_1_r, inject_Z_plus. reflexivity. }
      rewrite E. lra.
Qed.

Lemma paragraphs_nonempty (text : jsstring) :
  (1 <= List.length (split reParagraph text))%nat.
Proof.
  destruct text as [|c s]; [cbn; lia |].
  unfold split. pose proof (splitLoop_nonempty reParagraph (c :: s) 0 [] None).
  destruct (splitLoop reParagraph 0 [] None (c :: s)); [congruence | cbn; lia].
Qed.

(** With two sentences or more, the score is at least the mean pair score
    bound [k] plus the smallest structure bonus, 2. *)
Lemma calculateCoherence_lower (k : Q) (text : jsstring) :
  0 <= k <= 98 ->
  (2 <= List.length (splitIntoSentences text))%nat ->
  (forall a b, In a (splitIntoSentences text) ->
               In b (splitIntoSentences text) ->
               k <= pairScore toLowerCase a b) ->
  k + 2 <= calculateCoherence toLowerCase text.
Proof.
  intros Hk Hlen Hpairs. unfold calculateCoherence; cbv zeta.
  destruct (Nat.eqb_spec (List.length (splitIntoSentences text)) 0)
    as [? | _]; [lia |].
  destruct (Nat.eqb_spec (List.length (splitIntoSentences text)) 1)
    as [? | _]; [lia |].
  pose proof (totalPairScore_lower k (splitIntoSentences text) Hpairs 0) as Ht.
  set (total := totalPairScore toLowerCase (splitIntoSentences text) 0) in *.
  set (n := ofNat (List.length (splitIntoSentences text) - 1)) in *.
  assert (Hn : 0 < n) by (apply ofNat_pos; lia).
  assert (Hmean : k <= total / n).
  { apply Qle_shift_div_l; [exact Hn | lra]. }
  pose proof (paragraphs_nonempty text) as Hp.
  assert (Hb : 2 <= ofNat (Nat.min (List.length (split reParagraph text) * 2)
                                   10)).
  { change 2 with (ofNat 2). apply ofNat_le. lia. }
  assert (E : clamp (k + 2) 0 100 == k + 2) by (apply clamp_id; lra).
  rewrite <- E. apply clamp_mono; lra.
Qed.

(** X3. [calculateCoherence] returns 0 exactly for the texts without a
    sentence; with one sentence or more the score is at least 2. *)
Theorem calculateCoherence_zero_iff_no_sentence (text : jsstring) :
  (calculateCoherence toLowerCase text == 0 <-> splitIntoSentences text = [])
  /\ (splitIntoSentences text <> [] ->
      2 <= calculateCoherence toLowerCase text).
Proof.
  assert (H2 : splitIntoSentences text <> [] ->
               2 <= calculateCoherence toLowerCase text).
  { intros Hne.
    destruct (splitIntoSentences text) as [|a [|b l]] eqn:E;
      [congruence | |].
    - unfold calculateCoherence; cbv zeta. rewrite E. cbn. lra.
    - pose proof (calculateCoherence_lower 0 text) as H. rewrite E in H.
      rewrite <- (Qplus_0_l 2). apply H; [lra | cbn; lia |].
      intros x y _ _. apply pairScore_range. }
  split; [split | exact H2].
  - intros E0. destruct (splitIntoSentences text) eqn:E; [reflexivity |].
    assert (2 <= calculateCoherence toLowerCase text)
      by (apply H2; discriminate).
    rewrite E0 in *. lra.
  - intros E. unfold calculateCoherence; cbv zeta. rewrite E. reflexivity.
Qed.

Lemma pairScore_same_words (a b : jsstring) :
  toLowerCase a = toLowerCase b ->
  filter longerThan3 (split reSpaces (toLowerCase a)) <> [] ->
  70 <= pairScore toLowerCase a b.
Proof.
  intros Hab Hlong. unfold pairScore; cbv zeta. rewrite <- Hab.
  set (W := newSet (filter longerThan3 (split reSpaces (toLowerCase a)))).
  rewrite filter_has_self. unfold W. rewrite newSet_idempotent. fold W.
  pose proof (newSet_nonempty _ Hlong) as Hn. fold W in Hn.
  rewrite Nat.max_l by exact Hn.
  assert (Hpos : 0 < ofNat (List.length W)) by (apply ofNat_pos; lia).
  assert (E : ofNat (List.length W) / ofNat (List.length W) == 1)
    by (field; lra).
  assert (E70 : clamp 70 0 100 == 70) by (apply clamp_id; lra).
  rewrite <- E70 at 1.
  destruct (existsb _ transitionWords); apply clamp_mono; rewrite ?E; lra.
Qed.

(** X4. A text of two or more sentences that all have the same lower-case
    form, with a word longer than 3 characters in it, scores at least 72 on
    coherence: every pair has full word overlap (70) and the structure bonus
    is at least 2. *)
Theorem calculateCoherence_repeated_sentence (text u : jsstring) :
  (2 <= List.length (splitIntoSentences text))%nat ->
  Forall (fun s => toLowerCase s = u) (splitIntoSentences text) ->
  filter longerThan3 (split reSpaces u) <> [] ->
  72 <= calculateCoherence toLowerCase text.
Proof.
  intros Hlen Hsame Hlong. rewrite Forall_forall in Hsame.
  assert (E : 72 == 70 + 2) by reflexivity. rewrite E.
  apply calculateCoherence_lower; [lra | exact Hlen |].
  intros a b Ha Hb. apply pairScore_same_words.
  - now rewrite (Hsame a Ha), (Hsame b Hb).
  - now rewrite (Hsame a Ha).
Qed.

End Coherence.

(** *** Readability *)

Section ReadabilityBounds.
Variable toLowerCase : jsstring -> jsstring.

Lemma longSentenceFraction_range (text : jsstring) :
  splitIntoSentences text <> [] -> 0 <= longSentenceFraction text <= 1.
Proof.
  intros Hne. unfold longSentenceFraction; cbv zeta.
  assert (Hpos : 0 < ofNat (List.length (splitIntoSentences text))).
  { apply ofNat_pos. destruct (splitIntoSentences text);
      [congruence | cbn; lia]. }
  split.
  - apply Qle_shift_div_l; [exact Hpos |]. rewrite Qmult_0_l.
    apply ofNat_nonneg.
  - apply Qle_shift_div_r; [exact Hpos |]. rewrite Qmult_1_l.
    apply ofNat_le, filter_length_le.
Qed.

(** X5. For a text with words and sentences, the readability score is at
    most 20 below and at most 5 above the Flesch score clamped to [0,100]:
    the long-sentence penalty never exceeds 20 and the paragraph bonus is 0
    or 5. *)
Theorem calculateReadability_near_flesch (text : jsstring) :
  wordsOf text <> [] -> splitIntoSentences text <> [] ->
  clamp (fleschScore toLowerCase text) 0 100 - 20
  <= calculateReadability toLowerCase text
  <= clamp (fleschScore toLowerCase text) 0 100 + 5.
Proof.
  intros Hw Hs. rewrite (calculateReadability_factors toLowerCase text Hw Hs).
  pose proof (longSentenceFraction_range text Hs) as Hf.
  assert (H0 : 0 <= 100) by lra.
  pose proof (clamp_range (fleschScore toLowerCase text) 0 100 H0) as HF.
  set (F := clamp (fleschScore toLowerCase text) 0 100) in *.
  assert (Hb : 0 <= paragraphBonus text <= 5)
    by (unfold paragraphBonus; destruct (1 <? _)%nat; lra).
  destruct (clamp_cases (F - longSentenceFraction text * 20
                         + paragraphBonus text) 0 100 H0)
    as [[? E] | [[? E] | [? E]]]; rewrite E; lra.
Qed.

(** *** Syllables *)

Lemma vowelGroups_bounds (word : jsstring) :
  forall count previousWasVowel,
    (count <= vowelGroups word count previousWasVowel)%Z
    /\ (2 * (vowelGroups word count previousWasVowel - count)
        <= Z.of_nat (List.length word)
           + (if previousWasVowel then 0 else 1))%Z.
Proof.
  induction word as [|c w IH]; intros count prev; cbn [vowelGroups].
  - cbn [List.length]. destruct prev; lia.
  - cbv zeta. cbn [List.length]. rewrite Nat2Z.inj_succ.
    destruct (includes vowels [c]); destruct prev; cbn [andb negb];
      match goal with
      | |- context [vowelGroups w ?k ?b] =>
        destruct (IH k b) as [H1 H2]; cbv iota in H2
      end; lia.
Qed.

(** X6. [countSyllables] returns 0 exactly when the lower-cased word has no
    letter a-z; otherwise it returns at least 1 and at most half the number
    of letters, rounded up. *)
Theorem countSyllables_bounds (word : jsstring) :
  let letters := filter isLower (toLowerCase word) in
  (countSyllables toLowerCase word = 0%Z <-> letters = [])
  /\ (letters <> [] ->
      (1 <= countSyllables toLowerCase word)%Z
      /\ (2 * countSyllables toLowerCase word
          <= Z.of_nat (List.length letters) + 1)%Z).
Proof.
  cbv zeta. unfold countSyllables; cbv zeta.
  set (letters := filter isLower (toLowerCase word)).
  destruct letters as [|c l] eqn:E.
  - cbn. split; [tauto | congruence].
  - rewrite <- E. assert (Hlen : (1 <= List.length letters)%nat)
      by (rewrite E; cbn; lia).
    destruct (Nat.eqb_spec (List.length letters) 0) as [? | _]; [lia |].
    destruct (vowelGroups_bounds letters 0 false) as [H1 H2].
    split; [split; [| rewrite E; discriminate] | intros _];
      destruct (endsWith letters (lit "e")); lia.
Qed.

End ReadabilityBounds.

(** *** Completeness *)

Section Completeness.
Variable toLowerCase : jsstring -> jsstring.

Lemma promptTerms_are_tokens (prompt w : jsstring) :
  In w (promptTerms toLowerCase prompt) ->
  In w (split reSpaces (toLowerCase prompt)) /\ (3 < List.length w)%nat.
Proof.
  unfold promptTerms. intros H.
  apply filter_In in H as [H _]. apply filter_In in H as [H Hlen].
  split; [exact H | now apply Nat.ltb_lt].
Qed.

Lemma filter_all (A : Type) (f : A -> bool) (l : list A) :
  (forall x, In x l -> f x = true) -> filter f l = l.
Proof.
  induction l as [|x l IH]; intros H; [reflexivity |].
  cbn [filter]. rewrite (H x (or_introl eq_refl)). f_equal.
  apply IH. intros y Hy. apply H. now right.
Qed.

Lemma filter_none (A : Type) (f : A -> bool) (l : list A) :
  (forall x, In x l -> f x = false) -> filter f l = [].
Proof.
  induction l as [|x l IH]; intros H; [reflexivity |].
  cbn [filter]. rewrite (H x (or_introl eq_refl)).
  apply IH. intros y Hy. apply H. now right.
Qed.

(** X7. A response that repeats the prompt scores at least 60 on
    completeness: every key term of the prompt is found in it (or the prompt
    has no key term and the score is 75). *)
Theorem calculateCompleteness_echo (prompt : jsstring) :
  60 <= calculateCompleteness toLowerCase prompt prompt.
Proof.
  unfold calculateCompleteness; cbv zeta.
  destruct (promptTerms toLowerCase prompt) as [|w l] eqn:E; [cbn; lra |].
  rewrite <- E.
  assert (Hlen : (1 <= List.length (promptTerms toLowerCase prompt))%nat)
    by (rewrite E; cbn; lia).
  destruct (Nat.eqb_spec (List.length (promptTerms toLowerCase prompt)) 0)
    as [? | _]; [lia |].
  rewrite filter_all.
  2:{ intros x Hx. apply promptTerms_are_tokens in Hx as [Hx _].
      apply includes_infix.
      pose proof (split_infix reSpaces (toLowerCase prompt)) as H.
      rewrite Forall_forall in H. now apply H. }
  assert (Hpos : 0 < ofNat (List.length (promptTerms toLowerCase prompt)))
    by (apply ofNat_pos; lia).
  assert (Ecov : ofNat (List.length (promptTerms toLowerCase prompt))
                 / ofNat (List.length (promptTerms toLowerCase prompt)) * 60
                 == 60) by (field; lra).
  rewrite (clamp_compat _ _ 0 100 (Qplus_comp _ _ Ecov _ _ (Qeq_refl _))).
  assert (E60 : clamp 60 0 100 == 60) by (apply clamp_id; lra).
  rewrite <- E60 at 1. apply clamp_mono; [lra |].
  destruct (test reExample prompt);
    destruct (test reList prompt || test reOrdinal prompt)%bool;
    destruct (_ && _)%bool; lra.
Qed.

(** X8. When the prompt has a key term, the empty response scores 0 on
    completeness (the lower-casing of the empty string being empty). *)
Theorem calculateCompleteness_empty_response (prompt : jsstring) :
  toLowerCase [] = [] ->
  promptTerms toLowerCase prompt <> [] ->
  calculateCompleteness toLowerCase prompt [] == 0.
Proof.
  intros Hlow Hterms. unfold calculateCompleteness; cbv zeta.
  destruct (Nat.eqb_spec (List.length (promptTerms toLowerCase prompt)) 0)
    as [Hz | _];
    [destruct (promptTerms toLowerCase prompt); [congruence | discriminate] |].
  rewrite Hlow. rewrite filter_none.
  2:{ intros w Hw. apply promptTerms_are_tokens in Hw as [_ Hlen].
      destruct w; [cbn in Hlen; lia | reflexivity]. }
  change (test reExample []) with false.
  change (test reList [] || test reOrdinal [])%bool with false.
  cbn [List.length Nat.ltb Nat.leb andb].
  match goal with
  | |- clamp ?x _ _ == _ =>
    assert (E : x == 0)
      by (unfold Qdiv; change (ofNat 0) with 0; rewrite !Qmult_0_l;
          reflexivity)
  end.
  rewrite (clamp_compat _ _ 0 100 E). apply clamp_id. lra.
Qed.

End Completeness.

(** *** Length appropriateness *)

Lemma wordCount_positive (text : jsstring) : (1 <= wordCount text)%Z.
Proof.
  unfold wordCount. destruct text as [|c s]; [cbn; lia |].
  unfold split. pose proof (splitLoop_nonempty reSpaces (c :: s) 0 [] None).
  destruct (splitLoop reSpaces 0 [] None (c :: s)); [congruence |].
  cbn [List.length]. lia.
Qed.

(** X9. Every text counts as at least one word, and a response that is not
    longer than the expected maximum scores more than 20 on length
    appropriateness, however short it is. *)
Theorem calculateLengthAppropriateness_not_too_long
        (prompt response : jsstring) :
  (1 <= wordCount response)%Z
  /\ ((wordCount response <= expectedMax prompt)%Z ->
      20 < calculateLengthAppropriateness prompt response).
Proof.
  pose proof (wordCount_positive response) as Hw.
  split; [exact Hw |]. intros Hmax.
  pose proof (expectedRange_bounds prompt) as [[Hlo _] _].
  assert (HL : 0 < inject_Z (expectedMin prompt)) by (apply inject_Z_pos; lia).
  destruct (Z.lt_ge_cases (wordCount response) (expectedMin prompt))
    as [Hs | Hs].
  - rewrite (length_score_short _ _ Hs).
    assert (inject_Z (expectedMin prompt - wordCount response)
            / inject_Z (expectedMin prompt) < 1).
    { apply Qlt_shift_div_r; [exact HL |]. rewrite Qmult_1_l.
      rewrite <- Zlt_Qlt. lia. }
    lra.
  - rewrite (length_score_in_band prompt response) by lia. lra.
Qed.

(** *** Structural quality *)

Lemma reBreaks_needs_line_feed (prev : option N) (t : jsstring) :
  Forall (fun c => ch 10 c = false) t -> matchAt reBreaks prev t = None.
Proof.
  intros Ht. unfold matchAt, reBreaks. destruct t as [|c t]; [reflexivity |].
  inversion Ht as [|? ? Hc _]; subst. cbn [run rep]. now rewrite Hc.
Qed.

Lemma punctuationScore_nonneg (text : jsstring) : 0 <= punctuationScore text.
Proof. rewrite punctuationScore_zero. lra. Qed.

(** X10. A text without a line feed has no run of four line breaks, and a
    text without such a run scores at least 60 on structural quality: only
    excessive line breaks take points away from the base score. *)
Theorem calculateStructuralQuality_at_least_base (text : jsstring) :
  (forallb (fun c => negb (ch 10 c)) text = true ->
   excessiveBreaks text = 0%nat)
  /\ (excessiveBreaks text = 0%nat -> 60 <= calculateStructuralQuality text).
Proof.
  split.
  - intros H. unfold excessiveBreaks, matchCount.
    apply (matchCountFrom_no_match (fun c => ch 10 c = false));
      [apply reBreaks_needs_line_feed |].
    apply Forall_forall. intros c Hc.
    rewrite forallb_forall in H. apply negb_true_iff. now apply H.
  - intros H. unfold calculateStructuralQuality.
    assert (E60 : clamp 60 0 100 == 60) by (apply clamp_id; lra).
    rewrite <- E60 at 1. apply clamp_mono; [lra |].
    unfold structuralScore; cbv zeta. rewrite H. change (ofNat 0) with 0.
    pose proof (paragraphScore_range text).
    pose proof (punctuationScore_nonneg text).
    unfold listScore, codeScore, headerScore, parenScore.
    destruct (2 <=? _)%nat; destruct (test reCode text);
      destruct (_ || _)%bool; destruct (_ =? _)%nat; lra.
Qed.

Lemma filter_length_Permutation (p : N -> bool) (t t' : jsstring) :
  Permutation t t' ->
  List.length (filter p t) = List.length (filter p t').
Proof.
  induction 1 as [| x l l' _ IH | x y l | l l' l'' _ IH1 _ IH2].
  - reflexivity.
  - cbn [filter]. destruct (p x); cbn [List.length]; now rewrite IH.
  - cbn [filter]. destruct (p x); destruct (p y); reflexivity.
  - now rewrite IH1.
Qed.

(** X11. The parenthesis check only compares the numbers of '(' and ')':
    rearranging the code units of a text in any order changes neither count
    nor the bonus, so nesting and order are never checked. *)
Theorem parenScore_ignores_order (text text' : jsstring) :
  Permutation text text' ->
  openParens text' = openParens text
  /\ closeParens text' = closeParens text
  /\ parenScore text' = parenScore text.
Proof.
  intros Hperm.
  assert (Ho : openParens text' = openParens text).
  { unfold openParens, reOpenParen. rewrite !matchCount_class.
    symmetry. now apply filter_length_Permutation. }
  assert (Hc : closeParens text' = closeParens text).
  { unfold closeParens, reCloseParen. rewrite !matchCount_class.
    symmetry. now apply filter_length_Permutation. }
  unfold parenScore. now rewrite Ho, Hc.
Qed.

(** *** Aggregation and explanations *)

Lemma round_mono (x y : Q) : x <= y -> (round x <= round y)%Z.
Proof. intros H. unfold round. apply Qfloor_resp_le. lra. Qed.

Lemma mean5_between (a b c d e : Q) :
  let m := (a + b + c + d + e) / 5 in
  (a <= m \/ b <= m \/ c <= m \/ d <= m \/ e <= m)
  /\ (m <= a \/ m <= b \/ m <= c \/ m <= d \/ m <= e).
Proof.
  cbv zeta.
  assert (E : (a + b + c + d + e) / 5 == (a + b + c + d + e) * (1 # 5))
    by field.
  rewrite E. set (m := (a + b + c + d + e) * (1 # 5)).
  assert (Hm : 5 * m == a + b + c + d + e) by (unfold m; ring).
  split.
  - destruct (Qlt_le_dec m a); [| tauto].
    destruct (Qlt_le_dec m b); [| tauto].
    destruct (Qlt_le_dec m c); [| tauto].
    destruct (Qlt_le_dec m d); [| tauto].
    destruct (Qlt_le_dec m e); [| tauto]. lra.
  - destruct (Qlt_le_dec a m); [| tauto].
    destruct (Qlt_le_dec b m); [| tauto].
    destruct (Qlt_le_dec c m); [| tauto].
    destruct (Qlt_le_dec d m); [| tauto].
    destruct (Qlt_le_dec e m); [| tauto]. lra.
Qed.

Section Aggregation.
Variable toLowerCase : jsstring -> jsstring.

(** X12. The [overall] field lies between the smallest and the largest of
    the five per-metric fields that [calculateMetrics] returns. *)
Theorem overall_between_extremes (prompt response : jsstring) :
  let m := calculateMetrics toLowerCase prompt response in
  (Z.min (coherence m)
         (Z.min (completeness m)
                (Z.min (readability m)
                       (Z.min (lengthAppropriatenss m)
                              (structuralQuality m))))
   <= overall m
   <= Z.max (coherence m)
            (Z.max (completeness m)
                   (Z.max (readability m)
                          (Z.max (lengthAppropriatenss m)
                                 (structuralQuality m)))))%Z.
Proof.
  cbv zeta. rewrite overall_unrounded.
  unfold calculateMetrics.
  cbn [coherence completeness readability lengthAppropriatenss
       structuralQuality].
  set (a := calculateCoherence toLowerCase response).
  set (b := calculateCompleteness toLowerCase prompt response).
  set (c := calculateReadability toLowerCase response).
  set (d := calculateLengthAppropriateness prompt response).
  set (e := calculateStructuralQuality response).
  destruct (mean5_between a b c d e) as [Hlo Hhi].
  split.
  - destruct Hlo as [H | [H | [H | [H | H]]]]; apply round_mono in H; lia.
  - destruct Hhi as [H | [H | [H | [H | H]]]]; apply round_mono in H; lia.
Qed.

Lemma getLengthDetails_low (z : Z) :
  (z < 40)%Z ->
  getLengthDetails z = lit "Significantly too short or excessively verbose.".
Proof.
  intros H. unfold getLengthDetails.
  destruct (Z.leb_spec 80 z); [lia |].
  destruct (Z.leb_spec 60 z); [lia |].
  destruct (Z.leb_spec 40 z); [lia | reflexivity].
Qed.

(** X13. For every prompt, the explanations of the empty response read
    "Poor coherence", "Hard to read", "Significantly too short" and "Good
    structure with minor formatting issues": the empty text scores 0 on
    coherence and readability, at most 24 on length and 65 on structure. *)
Theorem getMetricExplanations_empty_response (prompt : jsstring) :
  let m := calculateMetrics toLowerCase prompt [] in
  map details (getMetricExplanations m)
  = [lit "Poor coherence; ideas seem disconnected or jumpy.";
     getCompletenessDetails (completeness m);
     lit "Hard to read; overly complex or poorly structured.";
     lit "Significantly too short or excessively verbose.";
     lit "Good structure with minor formatting issues."]
  /\ (lengthAppropriatenss m <= 24)%Z.
Proof.
  cbv zeta.
  assert (Hlen : (lengthAppropriatenss (calculateMetrics toLowerCase prompt [])
                  <= 24)%Z).
  { unfold calculateMetrics. cbn [lengthAppropriatenss].
    change 24%Z with (round 24). apply round_mono.
    pose proof (expectedRange_bounds prompt) as [[Hlo _] _].
    assert (HL : 0 < inject_Z (expectedMin prompt))
      by (apply inject_Z_pos; lia).
    assert (Hw : wordCount [] = 1%Z) by reflexivity.
    rewrite length_score_short by (rewrite Hw; lia). rewrite Hw.
    assert ((19 # 20) <= inject_Z (expectedMin prompt - 1)
                         / inject_Z (expectedMin prompt)).
    { apply Qle_shift_div_l; [exact HL |].
      unfold Z.sub. rewrite inject_Z_plus, inject_Z_opp.
      change (inject_Z 1) with 1.
      assert (20 <= inject_Z (expectedMin prompt))
        by (change 20 with (inject_Z 20); rewrite <- Zle_Qle; lia).
      lra. }
    lra. }
  split; [| exact Hlen].
  unfold getMetricExplanations. cbn [map details].
  rewrite getLengthDetails_low by lia.
  reflexivity.
Qed.

End Aggregation.

(** *** Words *)

(** X15. The words that [calculateReadability] counts are non-empty and
    free of whitespace, and a text has no word exactly when it consists of
    whitespace only. *)
Theorem wordsOf_words (text : jsstring) :
  Forall (fun w => w <> [] /\ forallb (fun c => negb (isSpace c)) w = true)
         (wordsOf text)
  /\ (wordsOf text = [] <-> forallb isSpace text = true).
Proof.
  pose proof (split_plus_pieces isSpace text) as Hpieces.
  fold reSpaces in Hpieces. rewrite Forall_forall in Hpieces.
  split; [| split].
  - apply Forall_forall. intros w Hin. unfold wordsOf in Hin.
    apply filter_In in Hin as [Hin Hlen]. apply Nat.ltb_lt in Hlen.
    split; [destruct w; [cbn in Hlen; lia | discriminate] |].
    now apply Hpieces.
  - intros Hnone. destruct (forallb isSpace text) eqn:Hall;
      [reflexivity | exfalso].
    destruct (forallb_false_witness _ _ Hall) as [c [Hin Hc]].
    destruct (split_plus_covers isSpace c text Hc Hin) as [piece [Hp Hcp]].
    assert (Hw : In piece (wordsOf text)).
    { unfold wordsOf. apply filter_In. split; [exact Hp |].
      apply Nat.ltb_lt. destruct piece; [contradiction | cbn; lia]. }
    rewrite Hnone in Hw. contradiction.
  - intros Hall. unfold wordsOf. apply filter_none. intros w Hw.
    assert (Hch : Forall (fun c => isSpace c = true) text)
      by (apply Forall_forall; now apply forallb_forall).
    pose proof (split_chars _ reSpaces text Hch) as Hsp.
    rewrite Forall_forall in Hsp. specialize (Hsp w Hw).
    specialize (Hpieces w Hw).
    destruct w as [|c w]; [reflexivity | exfalso].
    inversion Hsp as [|? ? Hc _]; subst.
    cbn [forallb] in Hpieces. now rewrite Hc in Hpieces.
Qed.

(** *** Prompt patterns *)

Lemma run_StrCI_self (A : Type) (k : cont A) (w b : jsstring) :
  forall prev, exists prev', run (StrCI w) k prev (w ++ b) = k prev' b.
Proof.
  induction w as [|c w IH]; intros prev.
  - exists prev. reflexivity.
  - cbn [StrCI app run]. unfold isCI at 1. rewrite N.eqb_refl.
    destruct (IH (Some c)) as [prev' E]. exists prev'. exact E.
Qed.

Lemma run_Alts_member (r : regex) (rs : list regex) (prev : option N)
      (s : jsstring) :
  In r rs -> matchAt r prev s <> None -> matchAt (Alts rs) prev s <> None.
Proof.
  unfold matchAt. induction rs as [|r1 rs IH]; [contradiction |].
  intros Hin Hr. destruct rs as [|r2 rs'].
  - destruct Hin as [-> | []]. exact Hr.
  - change (Alts (r1 :: r2 :: rs')) with (Alt r1 (Alts (r2 :: rs'))).
    cbn [run].
    destruct (run r1 (fun _ rest => Some rest) prev s) eqn:E1;
      [discriminate |].
    destruct Hin as [-> | Hin]; [congruence | now apply IH].
Qed.

Lemma testFrom_infix (r : regex) (a s : jsstring) :
  (forall prev, matchAt r prev s <> None) ->
  forall prev, testFrom r prev (a ++ s) = true.
Proof.
  intros Hs. induction a as [|c a IH]; intros prev.
  - cbn [app]. specialize (Hs prev).
    destruct s; cbn [testFrom]; destruct (matchAt r prev _);
      congruence.
  - cbn [app testFrom]. destruct (matchAt r prev (c :: a ++ s));
      [reflexivity | apply IH].
Qed.

(** X16. The yes/no pattern matches anywhere in the prompt and is applied
    last: a prompt that contains one of "yes", "no", "true", "false",
    "choose", "select" as a substring (such as "no" inside "know") gets the
    expected range of 20 to 150 words, whatever else it contains. *)
Theorem expectedRange_choice_substring (prompt w : jsstring) :
  In w [lit "yes"; lit "no"; lit "true"; lit "false"; lit "choose";
        lit "select"] ->
  infix w prompt ->
  expectedRange prompt = (20, 150)%Z.
Proof.
  intros Hw [a [b ->]].
  assert (Ht : test reChoicePrompt (a ++ w ++ b) = true).
  { unfold test. apply testFrom_infix. intros prev.
    unfold reChoicePrompt. apply (run_Alts_member (StrCI w)).
    - apply in_map. exact Hw.
    - unfold matchAt.
      destruct (run_StrCI_self _ (fun _ rest => Some rest) w b prev)
        as [prev' E].
      rewrite E. discriminate. }
  unfold expectedRange; cbv zeta. now rewrite Ht.
Qed.

End AnalyzerFacts.

(** ** Properties of the results page *)

Module ResultsPageFacts.

Import JS Metrics ResultsPage.

Lemma fold_best (l : list LLMResponse) :
  forall (seen : list LLMResponse) (best : LLMResponse),
    (exists before after,
        seen = before ++ best :: after
        /\ Forall (fun r => (overall (metrics r) < overall (metrics best))%Z)
                  before
        /\ Forall (fun r => (overall (metrics r) <= overall (metrics best))%Z)
                  after) ->
    let best' :=
        fold_left (fun best curr =>
                     if (overall (metrics best) <? overall (metrics curr))%Z
                     then curr else best) l best in
    exists before after,
      seen ++ l = before ++ best' :: after
      /\ Forall (fun r => (overall (metrics r) < overall (metrics best'))%Z)
                before
      /\ Forall (fun r => (overall (metrics r) <= overall (metrics best'))%Z)
                after.
Proof.
  induction l as [|x l IH]; intros seen best (before & after & E & Hb & Ha);
    cbv zeta; cbn [fold_left].
  - rewrite app_nil_r. now exists before, after.
  - replace (seen ++ x :: l) with ((seen ++ [x]) ++ l)
      by (rewrite <- app_assoc; reflexivity).
    apply IH. destruct (Z.ltb_spec (overall (metrics best))
                                   (overall (metrics x))) as [Hlt | Hge].
    + exists seen, []. repeat apply conj; [reflexivity | | constructor].
      rewrite E. apply Forall_app. split; [| constructor].
      * eapply Forall_impl; [| exact Hb]. cbv beta. intros; lia.
      * exact Hlt.
      * eapply Forall_impl; [| exact Ha]. cbv beta. intros; lia.
    + exists before, (after ++ [x]). repeat apply conj; [| exact Hb |].
      * rewrite E, <- app_assoc. reflexivity.
      * apply Forall_app. split; [exact Ha | repeat constructor; exact Hge].
Qed.

(** X14. [bestResponse] fails on an empty list of responses; otherwise it
    returns the first response with the highest [overall] score: every
    response before it scores strictly less and every response after it
    scores at most as much. *)
Theorem bestResponse_first_maximum (responses : list LLMResponse) :
  match bestResponse responses with
  | None => responses = []
  | Some best =>
    exists before after,
      responses = before ++ best :: after
      /\ Forall (fun r => (overall (metrics r) < overall (metrics best))%Z)
                before
      /\ Forall (fun r => (overall (metrics r) <= overall (metrics best))%Z)
                after
  end.
Proof.
  unfold bestResponse, reduce. destruct responses as [|x l]; [reflexivity |].
  apply (fold_best l [x] x).
  exists [], []. repeat apply conj; [reflexivity | constructor | constructor].
Qed.

End ResultsPageFacts.

(** ** The further properties at concrete inputs *)

Module AnalyzerWitnesses.

Import JS Num Metrics AnalyzerFacts.
Local Open Scope Q_scope.

Lemma splitIntoSentences_empty_iff_witness :
  splitIntoSentences (lit " ?! .. ") = [].
Proof.
  apply (proj2 (splitIntoSentences_empty_iff (lit " ?! .. "))).
  vm_compute. reflexivity.
Defined.

Lemma calculateCoherence_zero_iff_no_sentence_witness :
  calculateCoherence asciiLower (lit "?!") == 0
  /\ 2 <= calculateCoherence asciiLower (lit "Hello world. Bye").
Proof.
  split.
  - apply (proj1 (calculateCoherence_zero_iff_no_sentence
                    asciiLower (lit "?!"))).
    vm_compute. reflexivity.
  - apply (proj2 (calculateCoherence_zero_iff_no_sentence
                    asciiLower (lit "Hello world. Bye"))).
    vm_compute. discriminate.
Defined.

Lemma calculateCoherence_repeated_sentence_witness :
  72 <= calculateCoherence asciiLower (lit "Cats jump. cats jump! CATS JUMP").
Proof.
  apply (calculateCoherence_repeated_sentence
           asciiLower (lit "Cats jump. cats jump! CATS JUMP")
           (lit "cats jump")).
  - vm_compute. lia.
  - vm_compute. repeat constructor.
  - vm_compute. discriminate.
Defined.

Lemma calculateReadability_near_flesch_witness :
  clamp (fleschScore asciiLower (lit "The cat sat on the mat. It was happy."))
        0 100 - 20
  <= calculateReadability asciiLower
                          (lit "The cat sat on the mat. It was happy.")
  <= clamp (fleschScore asciiLower
                        (lit "The cat sat on the mat. It was happy."))
           0 100 + 5.
Proof.
  apply (calculateReadability_near_flesch asciiLower).
  - vm_compute. discriminate.
  - vm_compute. discriminate.
Defined.

Lemma countSyllables_bounds_witness :
  (1 <= countSyllables asciiLower (lit "Apple"))%Z
  /\ (2 * countSyllables asciiLower (lit "Apple")
      <= Z.of_nat (List.length (filter isLower (asciiLower (lit "Apple"))))
         + 1)%Z.
Proof.
  apply (proj2 (countSyllables_bounds asciiLower (lit "Apple"))).
  vm_compute. discriminate.
Defined.

Lemma calculateCompleteness_empty_response_witness :
  calculateCompleteness asciiLower (lit "Explain machine learning") [] == 0.
Proof.
  apply (calculateCompleteness_empty_response asciiLower).
  - reflexivity.
  - vm_compute. discriminate.
Defined.

Lemma calculateLengthAppropriateness_not_too_long_witness :
  20 < calculateLengthAppropriateness (lit "hi") (lit "a b c").
Proof.
  apply (proj2 (calculateLengthAppropriateness_not_too_long
                  (lit "hi") (lit "a b c"))).
  vm_compute. discriminate.
Defined.

Lemma calculateStructuralQuality_at_least_base_witness :
  60 <= calculateStructuralQuality (lit "Hello (world").
Proof.
  apply (proj2 (calculateStructuralQuality_at_least_base
                  (lit "Hello (world"))).
  apply (proj1 (calculateStructuralQuality_at_least_base
                  (lit "Hello (world"))).
  vm_compute. reflexivity.
Defined.

Lemma parenScore_ignores_order_witness :
  openParens (lit ")a(") = openParens (lit "(a)")
  /\ closeParens (lit ")a(") = closeParens (lit "(a)")
  /\ parenScore (lit ")a(") = parenScore (lit "(a)").
Proof.
  apply (parenScore_ignores_order (lit "(a)") (rev (lit "(a)"))).
  apply Permutation_rev.
Defined.

Lemma wordsOf_words_witness : wordsOf (lit "  ") = [].
Proof.
  apply (proj2 (proj2 (wordsOf_words (lit "  ")))). vm_compute. reflexivity.
Defined.

Lemma expectedRange_choice_substring_witness :
  expectedRange (lit "Explain how to list what you know") = (20, 150)%Z.
Proof.
  apply (expectedRange_choice_substring
           (lit "Explain how to list what you know") (lit "no")).
  - right; left; reflexivity.
  - exists (lit "Explain how to list what you k"), (lit "w"). reflexivity.
Defined.

End AnalyzerWitnesses.
